(** * switch-input: a shallow embedding of the Go services

    The development follows the repository's layout:
    - [GoStrings], [GoPath], [GoFmt]: the few functions of Go's [strings],
      [path/filepath] and [fmt] packages that the services call;
    - [GoSync]: [sync.RWMutex] as explicit state, and the outcome of a call
      that may park its goroutine forever;
    - [Window]: [services/window.go], the polling monitor;
    - [Matcher]: the rule matcher and configuration store;
    - [Logger]: the buffered, rotated action log;
    - [Input]: [services/input.go], the switch of the input method;
    - [App]: [app.go], which wires the services together.

    Go's [int] is modelled by [Z]: the code only compares such values and
    computes [len(..)+1] and [i+1] on them, far from the 64-bit bounds.
    Go strings are byte strings and are modelled by [string]. *)

From Stdlib Require Import ZArith List String Ascii Lia Bool Permutation.
From Stdlib Require Import DecimalString DecimalZ.
From stdpp Require Import gmap strings list fin_maps.

Local Open Scope Z_scope.

(** ** Package [strings] *)

Module GoStrings.

(** The ASCII white space that [strings.TrimSpace] removes: tab, line feed,
    vertical tab, form feed, carriage return and space.  Go also removes
    the Unicode spaces beyond ASCII (U+0085, U+00A0, ...); the model is
    exact on ASCII input. *)
Definition isSpace (c : ascii) : bool :=
  let n := nat_of_ascii c in
  Nat.eqb n 32 || (Nat.leb 9 n && Nat.leb n 13).

Fixpoint trimLeft (s : string) : string :=
  match s with
  | EmptyString => EmptyString
  | String c s' => if isSpace c then trimLeft s' else s
  end.

Fixpoint trimRight (s : string) : string :=
  match s with
  | EmptyString => EmptyString
  | String c s' =>
      match trimRight s' with
      | EmptyString => if isSpace c then EmptyString else String c EmptyString
      | t => String c t
      end
  end.

Definition TrimSpace (s : string) : string := trimRight (trimLeft s).

(** [strings.ToLower] on ASCII letters; bytes outside 'A'..'Z' are kept
    (Go additionally maps the upper-case letters beyond ASCII). *)
Definition lowerByte (c : ascii) : ascii :=
  let n := nat_of_ascii c in
  if Nat.leb 65 n && Nat.leb n 90 then ascii_of_nat (n + 32) else c.

Fixpoint ToLower (s : string) : string :=
  match s with
  | EmptyString => EmptyString
  | String c s' => String (lowerByte c) (ToLower s')
  end.

Fixpoint HasPrefix (s p : string) : bool :=
  match p, s with
  | EmptyString, _ => true
  | String _ _, EmptyString => false
  | String a p', String b s' => if Ascii.eqb a b then HasPrefix s' p' else false
  end.

Fixpoint Contains (s substr : string) : bool :=
  HasPrefix s substr ||
  match s with
  | EmptyString => false
  | String _ s' => Contains s' substr
  end.

(** [splitFrom sep s skip]: the fields of [s] cut at the leftmost,
    non-overlapping occurrences of the non-empty [sep]; [skip] counts the
    bytes of an occurrence still to be dropped. *)
Fixpoint splitFrom (sep s : string) (skip : nat) : list string :=
  match s with
  | EmptyString => [EmptyString]
  | String c s' =>
      match skip with
      | S k => splitFrom sep s' k
      | O =>
          if HasPrefix s sep
          then EmptyString :: splitFrom sep s' (String.length sep - 1)
          else match splitFrom sep s' 0 with
               | t :: ts => String c t :: ts
               | [] => [String c EmptyString]
               end
      end
  end.

(** [strings.Split(s, sep)].  With an empty separator Go explodes [s]
    into its characters; the services only split on "," and " ". *)
Definition Split (s sep : string) : list string :=
  match sep with
  | EmptyString => List.map (fun c => String c EmptyString) (list_ascii_of_string s)
  | _ => splitFrom sep s 0
  end.

Fixpoint replaceFrom (old new s : string) (skip : nat) : string :=
  match s with
  | EmptyString => EmptyString
  | String c s' =>
      match skip with
      | S k => replaceFrom old new s' k
      | O =>
          if HasPrefix s old
          then String.append new (replaceFrom old new s' (String.length old - 1))
          else String c (replaceFrom old new s' 0)
      end
  end.

(** [strings.ReplaceAll(s, old, new)] for a non-empty [old] (the services
    replace "*" and ".*"). *)
Definition ReplaceAll (s old new : string) : string :=
  match old with
  | EmptyString => s
  | _ => replaceFrom old new s 0
  end.

End GoStrings.

(** ** Package [path/filepath] *)

Module GoPath.

(** Does the backwards scan of [filepath.Ext] stop inside [s], on a dot or
    on the path separator? *)
Fixpoint stops (s : string) : bool :=
  match s with
  | EmptyString => false
  | String c s' => Ascii.eqb c "." || Ascii.eqb c "/" || stops s'
  end.

(** [filepath.Ext(path)]: the suffix that starts at the last dot of the
    last path element, or the empty string when that element has no dot.
    The source scans [path] from its end; read from the front, a byte
    decides only when nothing after it stops the scan.  The separator is
    the "/" of macOS, where the application runs. *)
Fixpoint Ext (path : string) : string :=
  match path with
  | EmptyString => EmptyString
  | String c rest =>
      if stops rest then Ext rest
      else if Ascii.eqb c "." then path else EmptyString
  end.

End GoPath.

(** ** Package [fmt] *)

Module GoFmt.

(** The text that the verb [%d] prints for an [int]. *)
Definition formatInt (n : Z) : string := NilEmpty.string_of_int (Z.to_int n).

End GoFmt.

(** ** Package [sync], and calls that may never return *)

Module GoSync.

(** A [sync.RWMutex]: held by a writer, or by some number of readers. *)
Record RWMutex := { writer : bool; readers : nat }.

Definition unlocked : RWMutex := {| writer := false; readers := 0 |}.

(** A call either returns a value and leaves a state, or parks its
    goroutine for good in [Lock]/[RLock] with the state reached so far.
    The services are called one at a time, so a lock that is found held
    is held by the caller itself and is never released. *)
Inductive Outcome (S A : Type) : Type :=
| Returns (a : A) (s : S)
| Blocks (s : S).
Arguments Returns {S A} a s.
Arguments Blocks {S A} s.

Definition M (S A : Type) : Type := S -> Outcome S A.

#[global] Instance M_ret {S} : MRet (M S) := fun A a s => Returns a s.

#[global] Instance M_bind {S} : MBind (M S) := fun A B k m s =>
  match m s with
  | Returns a s' => k a s'
  | Blocks s' => Blocks s'
  end.

(** What a call returned, if it did. *)
Definition returned {S A} (o : Outcome S A) : option A :=
  match o with
  | Returns a _ => Some a
  | Blocks _ => None
  end.

(** The state a call left, or the one it is stuck in. *)
Definition final {S A} (o : Outcome S A) : S :=
  match o with
  | Returns _ s => s
  | Blocks s => s
  end.

Definition get {S} : M S S := fun s => Returns s s.
Definition put {S} (s : S) : M S unit := fun _ => Returns tt s.
Definition modify {S} (f : S -> S) : M S unit := fun s => Returns tt (f s).

Section Locks.
Context {S : Type} (mu : S -> RWMutex) (set_mu : RWMutex -> S -> S).

(** [mu.Lock()]: proceeds only when nobody holds the mutex. *)
Definition Lock : M S unit := fun s =>
  if writer (mu s) || negb (Nat.eqb (readers (mu s)) 0)
  then Blocks s
  else Returns tt (set_mu {| writer := true; readers := 0 |} s).

Definition Unlock : M S unit := fun s =>
  Returns tt (set_mu {| writer := false; readers := readers (mu s) |} s).

(** [mu.RLock()]: proceeds unless a writer holds the mutex. *)
Definition RLock : M S unit := fun s =>
  if writer (mu s)
  then Blocks s
  else Returns tt (set_mu {| writer := false; readers := Datatypes.S (readers (mu s)) |} s).

Definition RUnlock : M S unit := fun s =>
  Returns tt (set_mu {| writer := writer (mu s); readers := Nat.pred (readers (mu s)) |} s).
End Locks.

End GoSync.


(** ** [services/window.go] *)

Module Window.

Record WindowInfo := {
  AppName : string;
  AppPath : string;
  WindowName : string;
  PID : Z;
}.

(** What one call of [GetActiveWindow] gave: a window, or an error. *)
Inductive QueryResult :=
| QueryOk (window : WindowInfo)
| QueryErr (msg : string).

(** [WindowService].  The callback is a piece of the application; the
    model records whether one is registered ([onWindowChange != nil]) and
    keeps the arguments of its invocations, oldest first, in [calls]. *)
Record WindowService := {
  lastWindow : option WindowInfo;
  checkInterval : Z;
  onWindowChange : bool;
  calls : list WindowInfo;
}.

(** [NewWindowService]: 500 ms, no callback, nothing observed. *)
Definition NewWindowService : WindowService :=
  {| lastWindow := None; checkInterval := 500; onWindowChange := false; calls := [] |}.

Definition SetWindowChangeCallback (ws : WindowService) : WindowService :=
  {| lastWindow := lastWindow ws; checkInterval := checkInterval ws;
     onWindowChange := true; calls := calls ws |}.

(** The body of [case <-ticker.C] in [StartMonitoring]. *)
Definition tick (q : QueryResult) (ws : WindowService) : WindowService :=
  match q with
  | QueryOk window =>
      if match lastWindow ws with
         | None => true
         | Some last => negb (String.eqb (AppName last) (AppName window))
         end
      then
        {| lastWindow := Some window; checkInterval := checkInterval ws;
           onWindowChange := onWindowChange ws;
           calls := if onWindowChange ws then calls ws ++ [window] else calls ws |}
      else ws
  | QueryErr _ => ws
  end.

(** What the [select] of the loop receives: a tick, with the answer the
    query then gives, or the stop signal. *)
Inductive LoopEvent :=
| Tick (q : QueryResult)
| Stop.

(** [StartMonitoring] over the events the loop receives; it returns at
    the first [Stop]. *)
Fixpoint StartMonitoring (events : list LoopEvent) (ws : WindowService) : WindowService :=
  match events with
  | [] => ws
  | Tick q :: rest => StartMonitoring rest (tick q ws)
  | Stop :: _ => ws
  end.

(** The application identity changed: nothing was observed before, or the
    last observation has another application name. *)
Definition appChanged (ws : WindowService) (window : WindowInfo) : Prop :=
  match lastWindow ws with
  | None => True
  | Some last => AppName last ≠ AppName window
  end.

(** A monitor that last saw Safari, and Safari again with another window
    title and process id. *)
Definition safari : WindowInfo :=
  {| AppName := "Safari"; AppPath := ""; WindowName := "Start Page"; PID := 501 |}.
Definition safariOtherTab : WindowInfo :=
  {| AppName := "Safari"; AppPath := ""; WindowName := "Downloads"; PID := 777 |}.
Definition watching : WindowService :=
  {| lastWindow := Some safari; checkInterval := 500; onWindowChange := true;
     calls := [safari] |}.

(** *** Reading the foreground window *)

(** What the commands of [GetActiveWindow] print, [None] when a command
    fails: the two [osascript] calls of macOS and the PowerShell script of
    Windows. *)
Record Commands := {
  osascriptName : option string;
  osascriptPid : option string;
  powershell : option string;
}.

(** [fmt.Sscanf(text, "%d", &pid)] followed by [if err != nil { pid = 0 }];
    [scan] is what the scan reads, [None] when it fails. *)
Definition pidOf (scan : string -> option Z) (text : string) : Z :=
  default 0 (scan text).

Definition getActiveWindowMac (scan : string -> option Z) (cmds : Commands) : QueryResult :=
  match osascriptName cmds with
  | None => QueryErr "failed to get active window"
  | Some output =>
      let appName := GoStrings.TrimSpace output in
      if String.eqb appName "" then QueryErr "no active application found"
      else
        match osascriptPid cmds with
        | None => QueryErr "failed to get process ID"
        | Some outputPID =>
            QueryOk {| AppName := appName; AppPath := ""; WindowName := "";
                       PID := pidOf scan (GoStrings.TrimSpace outputPID) |}
        end
  end.

Definition getActiveWindowWindows (scan : string -> option Z) (cmds : Commands)
  : QueryResult :=
  match powershell cmds with
  | None => QueryErr "failed to get active window"
  | Some output =>
      let outputStr := GoStrings.TrimSpace output in
      if String.eqb outputStr "" then QueryErr "no active window found"
      else
        let parts := GoStrings.Split outputStr "||" in
        if Nat.ltb (length parts) 4 then QueryErr "invalid output format"
        else
          QueryOk {| AppName := nth 0 parts ""%string; AppPath := nth 1 parts ""%string;
                     WindowName := nth 2 parts ""%string;
                     PID := pidOf scan (nth 3 parts ""%string) |}
  end.

(** [GetActiveWindow], by [runtime.GOOS]. *)
Definition GetActiveWindow (goos : string) (scan : string -> option Z) (cmds : Commands)
  : QueryResult :=
  if String.eqb goos "darwin" then getActiveWindowMac scan cmds
  else if String.eqb goos "windows" then getActiveWindowWindows scan cmds
  else QueryErr (String.append "unsupported platform: " goos).

(** The line that the PowerShell script writes for a process name, its
    path, the window title and the process id. *)
Definition powershellLine (name path title pid : string) : string :=
  String.append name (String.append "||" (String.append path (String.append "||"
    (String.append title (String.append "||" pid))))).

(** *** Notions used to state the properties of the loop *)

(** Every window of the list has another application name than the one
    before it, [prev] being the one before the first. *)
Fixpoint changesOnly (prev : option WindowInfo) (windows : list WindowInfo) : Prop :=
  match windows with
  | [] => True
  | window :: rest =>
      match prev with
      | None => True
      | Some p => AppName p ≠ AppName window
      end
      ∧ changesOnly (Some window) rest
  end.

(** The window of the last query that succeeded before the loop stopped,
    [init] when there is none. *)
Fixpoint lastObserved (events : list LoopEvent) (init : option WindowInfo)
  : option WindowInfo :=
  match events with
  | [] => init
  | Tick (QueryOk window) :: rest => lastObserved rest (Some window)
  | Tick (QueryErr _) :: rest => lastObserved rest init
  | Stop :: _ => init
  end.

(** A field that the line can carry in front of a separator: it holds no
    "||" and does not end in "|", so that the separator after it is the
    first one of the text. *)
Definition fieldOfLine (field : string) : Prop :=
  GoStrings.Contains (String.append field "|") "||" = false.

End Window.

(** ** The rule matcher and configuration store *)

Module Matcher.
Import GoSync.

Record Rule := {
  AppName : string;
  WindowName : string;
  Input : string;
  Enabled : bool;
  Priority : Z;
}.

Record GeneralConfig := {
  AutoStart : bool;
  CheckInterval : Z;
  SwitchDelay : Z;
  EnableLogging : bool;
  LogLevel : string;
  ShowNotifications : bool;
}.

(** A Go slice of rules: the address of its backing array, its length and
    its capacity.  The nil slice has capacity 0 and owns no array. *)
Record Slice := { base : nat; len : nat; cap : nat }.

Definition nilSlice : Slice := {| base := 0; len := 0; cap := 0 |}.

Record Config := {
  Rules : Slice;
  General : GeneralConfig;
  LastModified : string;
}.

(** [MatcherService] (its [onRuleMatch] callback plays no part in the
    functions below and is left out). *)
Record MatcherService := {
  config : option Config;
  configPath : string;
  ruleMap : gmap string (list Rule);
  ruleMutex : RWMutex;
}.

(** The JSON document of a [Config], as [json.MarshalIndent] writes it and
    [json.Unmarshal] reads it back: the field values. *)
Record ConfigDoc := {
  docRules : list Rule;
  docGeneral : GeneralConfig;
  docLastModified : string;
}.

(** What a file holds: a document that decodes to a [Config], or bytes
    that [json.Unmarshal] rejects. *)
Inductive FileData :=
| Json (doc : ConfigDoc)
| Malformed (bytes : string).

(** The process and its surroundings: the process id, which system calls
    fail, and how many spare slots the runtime adds to an array that it
    allocates for a given length. *)
Record Env := {
  pid : Z;
  mkdirFails : bool;
  writeFails : bool;
  readFails : bool;
  spare : nat -> nat;
}.

(** The service, the backing arrays of the rule slices, the next free
    address, and the files by path. *)
Record State := {
  ms : MatcherService;
  arrays : gmap nat (list Rule);
  next : nat;
  files : gmap string FileData;
  env : Env;
}.

Inductive Error :=
| ErrCreateDir
| ErrWriteFile
| ErrReadFile
| ErrParse
| ErrCreateDefault (cause : Error)
| ErrNotLoaded
| ErrIndexOutOfRange.

Definition zeroRule : Rule :=
  {| AppName := ""; WindowName := ""; Input := ""; Enabled := false; Priority := 0 |}.

Definition setPriority (p : Z) (rule : Rule) : Rule :=
  {| AppName := AppName rule; WindowName := WindowName rule; Input := Input rule;
     Enabled := Enabled rule; Priority := p |}.

Definition setRules (rules : Slice) (c : Config) : Config :=
  {| Rules := rules; General := General c; LastModified := LastModified c |}.

Definition setLastModified (m : string) (c : Config) : Config :=
  {| Rules := Rules c; General := General c; LastModified := m |}.

Definition setGeneral (g : GeneralConfig) (c : Config) : Config :=
  {| Rules := Rules c; General := g; LastModified := LastModified c |}.

Definition setRuleMutex (mu : RWMutex) (st : State) : State :=
  {| ms := {| config := config (ms st); configPath := configPath (ms st);
              ruleMap := ruleMap (ms st); ruleMutex := mu |};
     arrays := arrays st; next := next st; files := files st; env := env st |}.

Definition setConfig (c : option Config) (st : State) : State :=
  {| ms := {| config := c; configPath := configPath (ms st);
              ruleMap := ruleMap (ms st); ruleMutex := ruleMutex (ms st) |};
     arrays := arrays st; next := next st; files := files st; env := env st |}.

Definition setRuleMap (m : gmap string (list Rule)) (st : State) : State :=
  {| ms := {| config := config (ms st); configPath := configPath (ms st);
              ruleMap := m; ruleMutex := ruleMutex (ms st) |};
     arrays := arrays st; next := next st; files := files st; env := env st |}.

Definition setArray (a : nat) (arr : list Rule) (st : State) : State :=
  {| ms := ms st; arrays := <[a := arr]> (arrays st); next := next st;
     files := files st; env := env st |}.

Definition setFile (path : string) (d : FileData) (st : State) : State :=
  {| ms := ms st; arrays := arrays st; next := next st;
     files := <[path := d]> (files st); env := env st |}.

(** [NewMatcherService] in a fresh process. *)
Definition NewMatcherService (path : string) : MatcherService :=
  {| config := None; configPath := path; ruleMap := ∅; ruleMutex := unlocked |}.

(** *** Slices *)

Definition arrayOf (st : State) (s : Slice) : list Rule :=
  default [] (arrays st !! base s).

(** The elements [s[0]], ..., [s[len-1]]. *)
Definition elems (st : State) (s : Slice) : list Rule :=
  take (len s) (arrayOf st s).

(** A new backing array holding [rules] followed by [extra] zero slots. *)
Definition allocArray (rules : list Rule) (extra : nat) : M State Slice := fun st =>
  let n := length rules in
  Returns {| base := next st; len := n; cap := n + extra |}
          {| ms := ms st;
             arrays := <[next st := rules ++ replicate extra zeroRule]> (arrays st);
             next := S (next st); files := files st; env := env st |}.

(** An array that the runtime sizes itself ([append] that grows, the JSON
    decoder). *)
Definition alloc (rules : list Rule) : M State Slice := fun st =>
  allocArray rules (spare (env st) (length rules)) st.

(** [append(s, more...)]: in place when the capacity allows, so that the
    new elements land in the array that [s] shares; in a new array
    otherwise. *)
Definition append (s : Slice) (more : list Rule) : M State Slice := fun st =>
  let n := (len s + length more)%nat in
  if Nat.leb n (cap s)
  then
    let arr := arrayOf st s in
    Returns {| base := base s; len := n; cap := cap s |}
            (setArray (base s) (take (len s) arr ++ more ++ drop n arr) st)
  else alloc (elems st s ++ more) st.

(** [s[index] = rule] for an index within the length. *)
Definition store (s : Slice) (index : nat) (rule : Rule) : M State unit := fun st =>
  Returns tt (setArray (base s) (<[index := rule]> (arrayOf st s)) st).

(** *** The rule index *)

(** The body of the inner loop of [buildRuleMap], for one field of the
    comma-separated application names. *)
Definition addUnder (rule : Rule) (m : gmap string (list Rule)) (appName : string)
  : gmap string (list Rule) :=
  let appName := GoStrings.TrimSpace appName in
  if String.eqb appName "" then m
  else <[appName := default [] (m !! appName) ++ [rule]]> m.

Definition addRuleToMap (m : gmap string (list Rule)) (rule : Rule)
  : gmap string (list Rule) :=
  if Enabled rule
  then foldl (addUnder rule) m (GoStrings.Split (AppName rule) ",")
  else m.

(** [if rules[i].Priority > rules[j].Priority { swap }] *)
Definition swapIfGreater (i j : nat) (rules : list Rule) : list Rule :=
  match rules !! i, rules !! j with
  | Some a, Some b =>
      if Priority a >? Priority b then <[j := a]> (<[i := b]> rules) else rules
  | _, _ => rules
  end.

(** [for j := i + 1; j < n; j++ { ... }] *)
Definition innerLoop (n i : nat) (rules : list Rule) : list Rule :=
  foldl (fun rs j => swapIfGreater i j rs) rules (seq (S i) (n - S i)).

(** The two nested loops that order the rules of one key:
    [for i := 0; i < len(rules)-1; i++ { for j := ... }]. *)
Definition sortByPriority (rules : list Rule) : list Rule :=
  foldl (fun rs i => innerLoop (length rules) i rs) rules (seq 0 (length rules - 1)).

Definition buildRuleMap (st : State) : State :=
  match config (ms st) with
  | None => setRuleMap ∅ st
  | Some c =>
      setRuleMap (sortByPriority <$> foldl addRuleToMap ∅ (elems st (Rules c))) st
  end.

(** *** Matching *)

Definition appNameMatches (currentAppName ruleAppName : string) : bool :=
  let currentAppName := GoStrings.ToLower (GoStrings.TrimSpace currentAppName) in
  let ruleAppName := GoStrings.ToLower (GoStrings.TrimSpace ruleAppName) in
  if String.eqb currentAppName ruleAppName then true
  else if GoStrings.Contains currentAppName ruleAppName
          || GoStrings.Contains ruleAppName currentAppName then true
  else existsb (fun part =>
                  negb (String.eqb (GoStrings.TrimSpace part) "")
                  && GoStrings.Contains currentAppName part)
               (GoStrings.Split ruleAppName " ").

Definition windowNameMatches (currentWindowName ruleWindowName : string) : bool :=
  if String.eqb ruleWindowName "" then true
  else
    let currentWindowName := GoStrings.ToLower (GoStrings.TrimSpace currentWindowName) in
    let ruleWindowName := GoStrings.ToLower (GoStrings.TrimSpace ruleWindowName) in
    if GoStrings.Contains ruleWindowName "*"
    then
      let pattern := GoStrings.ReplaceAll ruleWindowName "*" ".*" in
      GoStrings.Contains currentWindowName (GoStrings.ReplaceAll pattern ".*" "")
    else GoStrings.Contains currentWindowName ruleWindowName.

(** [for _, rule := range rules { if windowNameMatches(..) { return &rule } }] *)
Definition firstWindowMatch (window : Window.WindowInfo) (rules : list Rule) : option Rule :=
  List.find (fun rule => windowNameMatches (Window.WindowName window) (WindowName rule)) rules.

(** The first phase of [MatchWindow]: the rules under the key equal to the
    application name. *)
Definition exactMatch (m : gmap string (list Rule)) (window : Window.WindowInfo) : option Rule :=
  match m !! Window.AppName window with
  | Some rules => firstWindowMatch window rules
  | None => None
  end.

(** The second phase: [for appName, rules := range ms.ruleMap], in the
    order in which the runtime hands out the entries of the map. *)
Fixpoint fuzzyMatch (entries : list (string * list Rule)) (window : Window.WindowInfo)
  : option Rule :=
  match entries with
  | [] => None
  | (appName, rules) :: rest =>
      if appNameMatches (Window.AppName window) appName
      then match firstWindowMatch window rules with
           | Some rule => Some rule
           | None => fuzzyMatch rest window
           end
      else fuzzyMatch rest window
  end.

Definition lockMu : M State unit := Lock (fun st => ruleMutex (ms st)) setRuleMutex.
Definition unlockMu : M State unit := Unlock (fun st => ruleMutex (ms st)) setRuleMutex.
Definition rlockMu : M State unit := RLock (fun st => ruleMutex (ms st)) setRuleMutex.
Definition runlockMu : M State unit := RUnlock (fun st => ruleMutex (ms st)) setRuleMutex.

(** [MatchWindow].  Go does not fix the order in which [range] visits a
    map, and it may differ from one loop to the next: [order] is the
    order of this call, an arrangement of the entries of [ruleMap]. *)
Definition MatchWindow (order : list (string * list Rule)) (window : option Window.WindowInfo)
  : M State (option Rule) :=
  rlockMu;;
  st ← get;
  let result :=
    match window with
    | None => None
    | Some window =>
        match exactMatch (ruleMap (ms st)) window with
        | Some rule => Some rule
        | None => fuzzyMatch order window
        end
    end in
  runlockMu;;
  mret result.

(** An order in which one [range] loop may visit the rule map. *)
Definition iterationOrder (st : State) (order : list (string * list Rule)) : Prop :=
  order ≡ₚ map_to_list (ruleMap (ms st)).

(** Unfolds the monad and the lock operations of the service. *)
Ltac run_monad :=
  unfold mbind, M_bind, mret, M_ret, lockMu, unlockMu, rlockMu, runlockMu,
    Lock, Unlock, RLock, RUnlock, get, modify; simpl.

(** *** Notions used to state the properties of the index *)

(** Priorities never decrease along the list. *)
Definition ascending (rules : list Rule) : Prop :=
  ∀ a b x y, (a < b)%nat → rules !! a = Some x → rules !! b = Some y →
             Priority x <= Priority y.

(** Does this field of a comma-separated [AppName] put its rule under the
    key [name]? *)
Definition fieldIs (name field : string) : bool :=
  String.eqb (GoStrings.TrimSpace field) name
  && negb (String.eqb (GoStrings.TrimSpace field) "").

(** The entries that one rule contributes under [name]: one per field of
    its [AppName] that trims to [name], if the rule is enabled. *)
Definition occurrences (name : string) (rule : Rule) : list Rule :=
  if Enabled rule
  then (fun _ => rule) <$> List.filter (fieldIs name) (GoStrings.Split (AppName rule) ",")
  else [].

(** The candidates of the exact phase for the application [name], in the
    order of the rule list. *)
Definition candidates (rules : list Rule) (name : string) : list Rule :=
  rules ≫= occurrences name.

(** A name that is its own and only field: not empty, no comma, no white
    space at either end. *)
Definition plainName (name : string) : Prop :=
  name ≠ ""%string ∧ GoStrings.TrimSpace name = name ∧ GoStrings.Contains name "," = false.

(** The rule that the specification promises among candidates: the lowest
    priority value, and among equal priorities the earliest in the
    list. *)
Fixpoint firstLowest (rules : list Rule) : option Rule :=
  match rules with
  | [] => None
  | rule :: rest =>
      match firstLowest rest with
      | Some other => if Priority other <? Priority rule then Some other else Some rule
      | None => Some rule
      end
  end.

Definition promisedMatch (rules : list Rule) (window : Window.WindowInfo) : option Rule :=
  firstLowest
    (List.filter (fun rule => windowNameMatches (Window.WindowName window) (WindowName rule))
                 (candidates rules (Window.AppName window))).

(** *** The configuration store *)

(** [GetConfig]: a copy of the [Config] struct.  The copy has its own
    [General] and [LastModified]; its [Rules] is the same slice header,
    over the same backing array. *)
Definition GetConfig : M State (option Config) :=
  rlockMu;;
  st ← get;
  runlockMu;;
  mret (config (ms st)).

(** [SaveConfig].  [json.MarshalIndent] cannot fail on a [Config] (strings,
    booleans and integers only), and a failing [ioutil.WriteFile] is taken
    to leave the file as it was. *)
Definition SaveConfig (config : Config) : M State (option Error) :=
  lockMu;;
  err ← (st ← get;
         if mkdirFails (env st) then mret (Some ErrCreateDir)
         else
           let config := setLastModified (GoFmt.formatInt (pid (env st))) config in
           let data := Json {| docRules := elems st (Rules config);
                               docGeneral := General config;
                               docLastModified := LastModified config |} in
           if writeFails (env st) then mret (Some ErrWriteFile)
           else
             modify (setFile (configPath (ms st)) data);;
             modify (setConfig (Some config));;
             modify buildRuleMap;;
             mret None);
  unlockMu;;
  mret err.

Definition defaultRules : list Rule :=
  [ {| AppName := "com.apple.Safari"; WindowName := "";
       Input := "com.tencent.inputmethod.wetype.pinyin"; Enabled := true; Priority := 1 |};
    {| AppName := "com.google.Chrome"; WindowName := "";
       Input := "com.tencent.inputmethod.wetype.pinyin"; Enabled := true; Priority := 1 |};
    {| AppName := "com.apple.Terminal"; WindowName := "";
       Input := "com.apple.keylayout.ABC"; Enabled := true; Priority := 1 |};
    {| AppName := "com.microsoft.VSCode"; WindowName := "";
       Input := "com.apple.keylayout.ABC"; Enabled := true; Priority := 1 |} ].

Definition defaultGeneral : GeneralConfig :=
  {| AutoStart := false; CheckInterval := 500; SwitchDelay := 100;
     EnableLogging := true; LogLevel := "info"; ShowNotifications := true |}.

Definition createDefaultConfig : M State (option Error) :=
  rules ← allocArray defaultRules 0;
  SaveConfig {| Rules := rules; General := defaultGeneral; LastModified := "" |}.

(** The defaults that [LoadConfig] fills in. *)
Definition fillDefaults (g : GeneralConfig) : GeneralConfig :=
  {| AutoStart := AutoStart g;
     CheckInterval := if CheckInterval g =? 0 then 500 else CheckInterval g;
     SwitchDelay := if SwitchDelay g =? 0 then 100 else SwitchDelay g;
     EnableLogging := EnableLogging g;
     LogLevel := if String.eqb (LogLevel g) "" then "info" else LogLevel g;
     ShowNotifications := ShowNotifications g |}.

Definition LoadConfig : M State (option Error) :=
  lockMu;;
  err ← (st ← get;
         created ← match files st !! configPath (ms st) with
                   | None => createDefaultConfig
                   | Some _ => mret None
                   end;
         match created with
         | Some e => mret (Some (ErrCreateDefault e))
         | None =>
             st ← get;
             match (if readFails (env st) then None
                    else files st !! configPath (ms st)) with
             | None => mret (Some ErrReadFile)
             | Some (Malformed _) => mret (Some ErrParse)
             | Some (Json doc) =>
                 rules ← alloc (docRules doc);
                 modify (setConfig (Some {| Rules := rules;
                                            General := fillDefaults (docGeneral doc);
                                            LastModified := docLastModified doc |}));;
                 modify buildRuleMap;;
                 mret None
             end
         end);
  unlockMu;;
  mret err.

Definition AddRule (rule : Rule) : M State (option Error) :=
  config ← GetConfig;
  match config with
  | None => mret (Some ErrNotLoaded)
  | Some config =>
      let rule := if Priority rule =? 0
                  then setPriority (Z.of_nat (len (Rules config)) + 1) rule
                  else rule in
      rules ← append (Rules config) [rule];
      SaveConfig (setRules rules config)
  end.

Definition UpdateRule (index : Z) (rule : Rule) : M State (option Error) :=
  config ← GetConfig;
  match config with
  | None => mret (Some ErrNotLoaded)
  | Some config =>
      if (index <? 0) || (index >=? Z.of_nat (len (Rules config)))
      then mret (Some ErrIndexOutOfRange)
      else
        store (Rules config) (Z.to_nat index) rule;;
        SaveConfig config
  end.

(** [config.Rules = append(config.Rules[:index], config.Rules[index+1:]...)]:
    the tail is copied one slot down inside the shared backing array. *)
Definition DeleteRule (index : Z) : M State (option Error) :=
  config ← GetConfig;
  match config with
  | None => mret (Some ErrNotLoaded)
  | Some config =>
      if (index <? 0) || (index >=? Z.of_nat (len (Rules config)))
      then mret (Some ErrIndexOutOfRange)
      else
        st ← get;
        let front := {| base := base (Rules config); len := Z.to_nat index;
                        cap := cap (Rules config) |} in
        let back := drop (S (Z.to_nat index)) (elems st (Rules config)) in
        rules ← append front back;
        SaveConfig (setRules rules config)
  end.

(** The rules that the live configuration shows, if one is loaded. *)
Definition liveRules (st : State) : option (list Rule) :=
  (fun c => elems st (Rules c)) <$> config (ms st).

(** What one entry of the index answers in the second phase. *)
Definition fuzzyAnswer (window : Window.WindowInfo) (entry : string * list Rule)
  : option Rule :=
  if appNameMatches (Window.AppName window) entry.1
  then firstWindowMatch window entry.2
  else None.

(** All entries of the index that answer in the second phase answer with
    the same rule. *)
Definition oneFuzzyAnswer (st : State) (window : Window.WindowInfo) : Prop :=
  ∀ e1 e2 r1 r2,
    e1 ∈ map_to_list (ruleMap (ms st)) → e2 ∈ map_to_list (ruleMap (ms st)) →
    fuzzyAnswer window e1 = Some r1 → fuzzyAnswer window e2 = Some r2 → r1 = r2.

(** The slice is backed by an allocated array that is as long as its
    capacity. *)
Definition wfSlice (st : State) (s : Slice) : Prop :=
  (len s ≤ cap s)%nat ∧ length (arrayOf st s) = cap s ∧ (base s < next st)%nat.

(** *** Sample states *)

Definition sampleConfigPath : string := "/Users/me/.switch-input/config.json".

Definition quietEnv : Env :=
  {| pid := 4242; mkdirFails := false; writeFails := false; readFails := false;
     spare := fun _ => 0%nat |}.

(** The same process once the configuration directory has become
    read-only. *)
Definition readOnlyEnv : Env :=
  {| pid := 4242; mkdirFails := false; writeFails := true; readFails := false;
     spare := fun _ => 0%nat |}.

(** A new service, with no configuration file on disk. *)
Definition firstRun (e : Env) : State :=
  {| ms := NewMatcherService sampleConfigPath; arrays := ∅; next := 0; files := ∅; env := e |}.

(** A new service next to a configuration file that holds [rules]. *)
Definition withFile (rules : list Rule) (e : Env) : State :=
  {| ms := NewMatcherService sampleConfigPath; arrays := ∅; next := 0;
     files := {[ sampleConfigPath := Json {| docRules := rules; docGeneral := defaultGeneral;
                                       docLastModified := "4242" |} ]};
     env := e |}.

(** The service after it has loaded that file. *)
Definition loaded (rules : list Rule) (e : Env) : State :=
  final (LoadConfig (withFile rules e)).

Definition withEnv (e : Env) (st : State) : State :=
  {| ms := ms st; arrays := arrays st; next := next st; files := files st; env := e |}.

(** The service after it has loaded [tieRules], next to a file that has
    since been damaged. *)
Definition damagedFile (rules : list Rule) (e : Env) : State :=
  setFile sampleConfigPath (Malformed "{rules: [") (loaded rules e).

(** Two rules of equal priority for Safari, then a rule of higher
    precedence that asks for another window title. *)
Definition rulePinyin : Rule :=
  {| AppName := "com.apple.Safari"; WindowName := ""; Input := "pinyin";
     Enabled := true; Priority := 2 |}.
Definition ruleAbc : Rule :=
  {| AppName := "com.apple.Safari"; WindowName := ""; Input := "abc";
     Enabled := true; Priority := 2 |}.
Definition ruleDownloads : Rule :=
  {| AppName := "com.apple.Safari"; WindowName := "downloads"; Input := "us";
     Enabled := true; Priority := 1 |}.
Definition tieRules : list Rule := [rulePinyin; ruleAbc; ruleDownloads].

Definition safariWindow : Window.WindowInfo :=
  {| Window.AppName := "com.apple.Safari"; Window.AppPath := "";
     Window.WindowName := "Start Page"; Window.PID := 501 |}.

(** A rule that the user has ranked late, and a rule for the same
    application that comes without a priority. *)
Definition ruleLate : Rule :=
  {| AppName := "com.apple.Safari"; WindowName := ""; Input := "abc";
     Enabled := true; Priority := 10 |}.
Definition ruleUnranked : Rule :=
  {| AppName := "com.apple.Safari"; WindowName := ""; Input := "pinyin";
     Enabled := true; Priority := 0 |}.

(** A rule that comes without a priority. *)
Definition ruleNotes : Rule :=
  {| AppName := "com.apple.Notes"; WindowName := ""; Input := "pinyin";
     Enabled := true; Priority := 0 |}.

(** Two keys that both match "Google Chrome Canary" in the second
    phase. *)
Definition ruleChrome : Rule :=
  {| AppName := "Chrome"; WindowName := ""; Input := "abc"; Enabled := true; Priority := 1 |}.
Definition ruleGoogle : Rule :=
  {| AppName := "Google"; WindowName := ""; Input := "pinyin"; Enabled := true; Priority := 1 |}.
Definition canaryWindow : Window.WindowInfo :=
  {| Window.AppName := "Google Chrome Canary"; Window.AppPath := "";
     Window.WindowName := ""; Window.PID := 77 |}.
Definition chromeWindow : Window.WindowInfo :=
  {| Window.AppName := "Chrome"; Window.AppPath := "";
     Window.WindowName := ""; Window.PID := 78 |}.
Definition chromeFirst : list (string * list Rule) :=
  [("Chrome"%string, [ruleChrome]); ("Google"%string, [ruleGoogle])].
Definition googleFirst : list (string * list Rule) :=
  [("Google"%string, [ruleGoogle]); ("Chrome"%string, [ruleChrome])].

(** *** The remaining operations of the service *)

(** [GetAppRules]: a copy, built rule by rule, of the rules the index holds
    for the application. *)
Definition GetAppRules (appName : string) : M State (list Rule) :=
  rlockMu;;
  st ← get;
  let appRules :=
    match ruleMap (ms st) !! appName with
    | Some rules => foldl (fun appRules rule => appRules ++ [rule]) [] rules
    | None => []
    end in
  runlockMu;;
  mret appRules.

Definition ReloadConfig : M State (option Error) := LoadConfig.

(** The index is the one that [buildRuleMap] builds from the live
    configuration. *)
Definition indexInSync (st : State) : Prop :=
  ruleMap (ms st) = ruleMap (ms (buildRuleMap st)).

(** The live configuration, if any, has a well-formed rule slice. *)
Definition wfState (st : State) : Prop :=
  ∀ c, config (ms st) = Some c → wfSlice st (Rules c).

(** [s] without its "*" bytes. *)
Fixpoint withoutStars (s : string) : string :=
  match s with
  | EmptyString => EmptyString
  | String c s' => if Ascii.eqb c "*" then withoutStars s' else String c (withoutStars s')
  end.

End Matcher.

(** ** The action log *)

Module Logger.
Import GoSync.

(** [LogLevel] is an [int] with four named values. *)
Definition LogLevel := Z.
Definition LogLevelDebug : LogLevel := 0.
Definition LogLevelInfo : LogLevel := 1.
Definition LogLevelWarn : LogLevel := 2.
Definition LogLevelError : LogLevel := 3.

Record LogEntry := {
  Timestamp : Z;
  Level : string;
  Message : string;
  AppName : string;
  Input : string;
  Action : string;
  Error : string;
}.

(** An [*os.File] that is not nil: open, or already closed. *)
Inductive File := Opened | Closed.

(** [LoggerService] (the flush ticker and the stop channel drive
    [flushRoutine] and are left out). *)
Record LoggerService := {
  logFile : option File;
  logPath : string;
  maxLogSize : Z;
  maxLogFiles : Z;
  bufferSize : Z;
  logBuffer : list LogEntry;
  bufferMutex : RWMutex;
  enableLogging : bool;
}.

(** The service, the bytes of the files by path, and the text that
    [json.Marshal] gives for an entry ([None] when it fails). *)
Record LogState := {
  ls : LoggerService;
  files : gmap string string;
  jsonMarshal : LogEntry -> option string;
}.

Inductive Errno := ErrClosed | ErrNotExist.

Definition NewLoggerService (path : string) : LoggerService :=
  {| logFile := None; logPath := path; maxLogSize := 10 * 1024 * 1024;
     maxLogFiles := 5; bufferSize := 100; logBuffer := [];
     bufferMutex := unlocked; enableLogging := true |}.

Definition setLogFile (f : option File) (st : LogState) : LogState :=
  {| ls := {| logFile := f; logPath := logPath (ls st); maxLogSize := maxLogSize (ls st);
              maxLogFiles := maxLogFiles (ls st); bufferSize := bufferSize (ls st);
              logBuffer := logBuffer (ls st); bufferMutex := bufferMutex (ls st);
              enableLogging := enableLogging (ls st) |};
     files := files st; jsonMarshal := jsonMarshal st |}.

Definition setBuffer (b : list LogEntry) (st : LogState) : LogState :=
  {| ls := {| logFile := logFile (ls st); logPath := logPath (ls st);
              maxLogSize := maxLogSize (ls st);
              maxLogFiles := maxLogFiles (ls st); bufferSize := bufferSize (ls st);
              logBuffer := b; bufferMutex := bufferMutex (ls st);
              enableLogging := enableLogging (ls st) |};
     files := files st; jsonMarshal := jsonMarshal st |}.

Definition setBufferMutex (mu : RWMutex) (st : LogState) : LogState :=
  {| ls := {| logFile := logFile (ls st); logPath := logPath (ls st);
              maxLogSize := maxLogSize (ls st);
              maxLogFiles := maxLogFiles (ls st); bufferSize := bufferSize (ls st);
              logBuffer := logBuffer (ls st); bufferMutex := mu;
              enableLogging := enableLogging (ls st) |};
     files := files st; jsonMarshal := jsonMarshal st |}.

Definition setFiles (fs : gmap string string) (st : LogState) : LogState :=
  {| ls := ls st; files := fs; jsonMarshal := jsonMarshal st |}.

Definition SetLogging (enabled : bool) (st : LogState) : LogState :=
  {| ls := {| logFile := logFile (ls st); logPath := logPath (ls st);
              maxLogSize := maxLogSize (ls st);
              maxLogFiles := maxLogFiles (ls st); bufferSize := bufferSize (ls st);
              logBuffer := logBuffer (ls st); bufferMutex := bufferMutex (ls st);
              enableLogging := enabled |};
     files := files st; jsonMarshal := jsonMarshal st |}.

(** *** The file system calls of the service *)

(** [os.Remove]; its error is ignored by the callers below. *)
Definition Remove (name : string) (fs : gmap string string) : gmap string string :=
  delete name fs.

(** [os.Rename]: moves the file, replacing the target; without the source
    it fails and changes nothing (the error is ignored by the caller). *)
Definition Rename (oldpath newpath : string) (fs : gmap string string)
  : gmap string string :=
  match fs !! oldpath with
  | Some data => <[newpath := data]> (delete oldpath fs)
  | None => fs
  end.

(** [os.OpenFile(name, O_CREATE|O_WRONLY|O_APPEND, 0644)]: creates the
    file, empty, when it does not exist. *)
Definition OpenAppend (name : string) (fs : gmap string string) : gmap string string :=
  match fs !! name with
  | Some _ => fs
  | None => <[name := ""%string]> fs
  end.

(** [file.WriteString] on a file opened for appending. *)
Definition WriteString (name data : string) (fs : gmap string string)
  : gmap string string :=
  <[name := String.append (default ""%string (fs !! name)) data]> fs.

(** [ls.logFile.Stat()] then [Size()], for the handle that the service
    keeps on [logPath]. *)
Definition statSize (st : LogState) (f : File) : Errno + Z :=
  match f with
  | Closed => inl ErrClosed
  | Opened =>
      match files st !! logPath (ls st) with
      | Some data => inr (Z.of_nat (String.length data))
      | None => inl ErrNotExist
      end
  end.

(** *** Rotation *)

Definition baseNameWithoutExt (baseName : string) : string :=
  let ext := GoPath.Ext baseName in
  String.substring 0 (String.length baseName - String.length ext) baseName.

(** [fmt.Sprintf("%s.%d%s", baseNameWithoutExt, i, ext)] *)
Definition generationName (baseName : string) (i : Z) : string :=
  String.append (baseNameWithoutExt baseName)
    (String.append "." (String.append (GoFmt.formatInt i) (GoPath.Ext baseName))).

(** One turn of the loop [for i := ls.maxLogFiles - 1; i >= 1; i--]. *)
Definition shiftOne (baseName : string) (maxFiles i : Z) (fs : gmap string string)
  : gmap string string :=
  let currentLog := generationName baseName i in
  let newLog := generationName baseName (i + 1) in
  if i =? maxFiles - 1 then Remove currentLog fs else Rename currentLog newLog fs.

(** The turns for [i = k], [k - 1], ..., [1]. *)
Fixpoint shiftDown (baseName : string) (maxFiles : Z) (k : nat) (fs : gmap string string)
  : gmap string string :=
  match k with
  | O => fs
  | S k' => shiftDown baseName maxFiles k' (shiftOne baseName maxFiles (Z.of_nat k) fs)
  end.

(** What [rotateLogIfNeeded] does to the files once it has decided to
    rotate and has closed the live file. *)
Definition rotateFiles (path : string) (maxFiles : Z) (fs : gmap string string)
  : gmap string string :=
  let fs := Remove (generationName path maxFiles) fs in
  let fs := shiftDown path maxFiles (Z.to_nat (maxFiles - 1)) fs in
  let fs := Rename path (generationName path 1) fs in
  OpenAppend path fs.

Definition rotateLogIfNeeded : M LogState (option Errno) :=
  st ← get;
  match logFile (ls st) with
  | None => mret None
  | Some f =>
      match statSize st f with
      | inl err => mret (Some err)
      | inr size =>
          if size <? maxLogSize (ls st) then mret None
          else
            modify (setLogFile (Some Closed));;
            modify (setFiles (rotateFiles (logPath (ls st)) (maxLogFiles (ls st)) (files st)));;
            modify (setLogFile (Some Opened));;
            mret None
      end
  end.

(** *** Recording and flushing *)

Definition levelToString (level : LogLevel) : string :=
  if level =? LogLevelDebug then "debug"
  else if level =? LogLevelInfo then "info"
  else if level =? LogLevelWarn then "warn"
  else if level =? LogLevelError then "error"
  else "unknown".

Definition lockBuf : M LogState unit := Lock (fun st => bufferMutex (ls st)) setBufferMutex.
Definition unlockBuf : M LogState unit := Unlock (fun st => bufferMutex (ls st)) setBufferMutex.

(** The body of the loop of [flush] for one buffered entry: an entry that
    does not marshal is skipped, and nothing is written without an open
    file. *)
Definition writeEntry (st : LogState) (entry : LogEntry) : LogState :=
  match jsonMarshal st entry with
  | None => st
  | Some jsonData =>
      match logFile (ls st) with
      | Some Opened =>
          setFiles (WriteString (logPath (ls st))
                      (String.append jsonData (String "010"%char EmptyString))
                      (files st)) st
      | _ => st
      end
  end.

Definition flush : M LogState unit :=
  lockBuf;;
  (st ← get;
   match logBuffer (ls st) with
   | [] => mret tt
   | _ =>
       err ← rotateLogIfNeeded;
       match err with
       | Some _ => mret tt
       | None =>
           modify (fun st => foldl writeEntry st (logBuffer (ls st)));;
           modify (setBuffer [])
       end
   end);;
  unlockBuf.

(** [log], the method behind every [Log...] call; [now] is [time.Now()]. *)
Definition log (now : Z) (level : LogLevel)
    (message appName input action errorMsg : string) : M LogState unit :=
  let entry := {| Timestamp := now; Level := levelToString level; Message := message;
                  AppName := appName; Input := input; Action := action;
                  Error := errorMsg |} in
  lockBuf;;
  modify (fun st => setBuffer (logBuffer (ls st) ++ [entry]) st);;
  st ← get;
  (if Z.of_nat (length (logBuffer (ls st))) >=? bufferSize (ls st)
   then flush else mret tt);;
  unlockBuf.

Definition LogInfo (now : Z) (message : string) : M LogState unit :=
  st ← get;
  if enableLogging (ls st)
  then log now LogLevelInfo message "" "" "" ""
  else mret tt.

(** [n] calls of [LogInfo] in a row, each returning before the next. *)
Fixpoint LogInfoTimes (n : nat) (now : Z) (message : string) : M LogState unit :=
  match n with
  | O => mret tt
  | S n' => LogInfo now message;; LogInfoTimes n' now message
  end.

(** [Start], on a file system that lets it create the live file (the
    ticker that calls [flush] every five seconds is not modelled). *)
Definition Start (st : LogState) : LogState :=
  setLogFile (Some Opened) (setFiles (OpenAppend (logPath (ls st)) (files st)) st).

(** Unfolds the monad and the lock operations of the service. *)
Ltac run_log :=
  unfold mbind, M_bind, mret, M_ret, lockBuf, unlockBuf, Lock, Unlock, get, modify; simpl.

(** *** Notions used to state the properties of the log *)

(** The bytes that [flush] appends for a buffer: one line per entry that
    marshals. *)
Fixpoint encodeEntries (marshal : LogEntry -> option string) (buffer : list LogEntry)
  : string :=
  match buffer with
  | [] => ""
  | entry :: rest =>
      match marshal entry with
      | Some jsonData =>
          String.append (String.append jsonData (String "010"%char EmptyString))
                        (encodeEntries marshal rest)
      | None => encodeEntries marshal rest
      end
  end.

(** The entry that [log] builds. *)
Definition entryOf (now : Z) (level : LogLevel)
    (message appName input action errorMsg : string) : LogEntry :=
  {| Timestamp := now; Level := levelToString level; Message := message;
     AppName := appName; Input := input; Action := action; Error := errorMsg |}.

(** *** Sample states *)

Definition sampleLogPath : string := "/Users/me/.switch-input/logs/app.log".

(** A stand-in for [json.Marshal] that prints the message only. *)
Definition messageOnly (entry : LogEntry) : option string := Some (Message entry).

(** A new service with the defaults of [NewLoggerService], started on an
    empty directory. *)
Definition started : LogState :=
  Start {| ls := NewLoggerService sampleLogPath; files := ∅; jsonMarshal := messageOnly |}.

(** [doubled n s] is [s] repeated [2^n] times. *)
Fixpoint doubled (n : nat) (s : string) : string :=
  match n with
  | O => s
  | S n' => doubled n' (String.append s s)
  end.

(** Sixteen MiB of log, more than the 10 MiB at which the live file is
    rotated. *)
Definition fullLog : string := doubled 20 "0123456789abcdef".

(** The started service some rotations later: a live file that is full,
    four older generations, and one entry waiting in the buffer. *)
Definition fullLogger : LogState :=
  {| ls := {| logFile := Some Opened; logPath := sampleLogPath;
              maxLogSize := 10 * 1024 * 1024; maxLogFiles := 5; bufferSize := 100;
              logBuffer := [entryOf 0 LogLevelInfo "hello" "" "" "" ""];
              bufferMutex := unlocked; enableLogging := true |};
     files :=
       <[sampleLogPath := fullLog]>
         (<["/Users/me/.switch-input/logs/app.1.log"%string := "first"%string]>
            (<["/Users/me/.switch-input/logs/app.2.log"%string := "second"%string]>
               (<["/Users/me/.switch-input/logs/app.3.log"%string := "third"%string]>
                  (<["/Users/me/.switch-input/logs/app.4.log"%string := "fourth"%string]>
                     ∅))));
     jsonMarshal := messageOnly |}.

(** *** The remaining operations of the service *)

Definition LogDebug (now : Z) (message : string) : M LogState unit :=
  st ← get;
  if enableLogging (ls st)
  then log now LogLevelDebug message "" "" "" ""
  else mret tt.

Definition LogWarn (now : Z) (message : string) : M LogState unit :=
  st ← get;
  if enableLogging (ls st)
  then log now LogLevelWarn message "" "" "" ""
  else mret tt.

Definition LogError (now : Z) (message : string) : M LogState unit :=
  st ← get;
  if enableLogging (ls st)
  then log now LogLevelError message "" "" "" ""
  else mret tt.

(** [fmt.Sprintf] with the format of [LogWindowChange]. *)
Definition windowChangeMessage (appName windowName : string) : string :=
  String.append "窗口切换: "
    (String.append appName (String.append " (" (String.append windowName ")"))).

Definition LogWindowChange (now : Z) (appName windowName : string) : M LogState unit :=
  st ← get;
  if enableLogging (ls st)
  then log now LogLevelInfo (windowChangeMessage appName windowName)
           appName "" "window_change" ""
  else mret tt.

(** The message of [LogInputSwitch]; [err] is the text of the error, if
    there is one. *)
Definition inputSwitchMessage (appName inputId : string) (err : option string) : string :=
  let message :=
    String.append "输入法切换: " (String.append appName (String.append " -> " inputId)) in
  match err with
  | Some errorMsg =>
      String.append message (String.append " (失败: " (String.append errorMsg ")"))
  | None => message
  end.

Definition LogInputSwitch (now : Z) (appName inputId action : string) (err : option string)
  : M LogState unit :=
  st ← get;
  if enableLogging (ls st)
  then log now LogLevelInfo (inputSwitchMessage appName inputId err)
           appName inputId action (default ""%string err)
  else mret tt.

Definition ruleMatchMessage (appName inputId : string) : string :=
  String.append "规则匹配: " (String.append appName (String.append " -> " inputId)).

Definition LogRuleMatch (now : Z) (appName inputId : string) : M LogState unit :=
  st ← get;
  if enableLogging (ls st)
  then log now LogLevelInfo (ruleMatchMessage appName inputId)
           appName inputId "rule_match" ""
  else mret tt.

(** [ls.logFile.Close()] when the file is not nil. *)
Definition closeLogFile (st : LogState) : LogState :=
  match logFile (ls st) with
  | Some _ => setLogFile (Some Closed) st
  | None => st
  end.

(** [Stop]: a last [flush], then the file is closed.  (The ticker and the
    stop channel are left out, as in the record; closing the channel
    makes a second [Stop] panic, so the model is that of the first.) *)
Definition Stop : M LogState unit :=
  flush;;
  modify closeLogFile.

(** [ClearLogs], on a file system that lets it remove and create the live
    file. *)
Definition ClearLogs : M LogState (option Errno) :=
  lockBuf;;
  modify (setBuffer []);;
  modify closeLogFile;;
  modify (fun st => setFiles (Remove (logPath (ls st)) (files st)) st);;
  modify (fun st =>
            setLogFile (Some Opened)
              (setFiles (OpenAppend (logPath (ls st)) (files st)) st));;
  unlockBuf;;
  mret None.

(** One call of a [Log...] method. *)
Inductive Call :=
| CallDebug (message : string)
| CallInfo (message : string)
| CallWarn (message : string)
| CallError (message : string)
| CallWindowChange (appName windowName : string)
| CallInputSwitch (appName inputId action : string) (err : option string)
| CallRuleMatch (appName inputId : string).

Definition call (now : Z) (c : Call) : M LogState unit :=
  match c with
  | CallDebug message => LogDebug now message
  | CallInfo message => LogInfo now message
  | CallWarn message => LogWarn now message
  | CallError message => LogError now message
  | CallWindowChange appName windowName => LogWindowChange now appName windowName
  | CallInputSwitch appName inputId action err =>
      LogInputSwitch now appName inputId action err
  | CallRuleMatch appName inputId => LogRuleMatch now appName inputId
  end.

(** The calls of a list one after the other, each one made once the one
    before has returned; the times of the calls are [now], [now + 1],
    ... *)
Fixpoint callAll (now : Z) (cs : list Call) : M LogState unit :=
  match cs with
  | [] => mret tt
  | c :: rest => call now c;; callAll (now + 1) rest
  end.

(** The entry that a call leaves in the buffer. *)
Definition entryFor (now : Z) (c : Call) : LogEntry :=
  match c with
  | CallDebug message => entryOf now LogLevelDebug message "" "" "" ""
  | CallInfo message => entryOf now LogLevelInfo message "" "" "" ""
  | CallWarn message => entryOf now LogLevelWarn message "" "" "" ""
  | CallError message => entryOf now LogLevelError message "" "" "" ""
  | CallWindowChange appName windowName =>
      entryOf now LogLevelInfo (windowChangeMessage appName windowName)
              appName "" "window_change" ""
  | CallInputSwitch appName inputId action err =>
      entryOf now LogLevelInfo (inputSwitchMessage appName inputId err)
              appName inputId action (default ""%string err)
  | CallRuleMatch appName inputId =>
      entryOf now LogLevelInfo (ruleMatchMessage appName inputId)
              appName inputId "rule_match" ""
  end.

Fixpoint entriesFor (now : Z) (cs : list Call) : list LogEntry :=
  match cs with
  | [] => []
  | c :: rest => entryFor now c :: entriesFor (now + 1) rest
  end.


End Logger.


(** ** The input method ([services/input.go]) *)

Module Input.
Import GoSync.

(** The state that [SwitchInput] acts on: the arguments with which the
    tool [im-select] has been run so far, oldest first. *)
Definition Runs := list string.

(** [switchInputMac]: runs [/opt/homebrew/bin/im-select inputID].  [run]
    is the outcome of [cmd.Run()] for an argument: [None] when the tool
    succeeds, the text of its error otherwise. *)
Definition switchInputMac (run : string -> option string) (inputID : string)
  : M Runs (option string) :=
  modify (fun runs => runs ++ [inputID]);;
  mret (match run inputID with
        | Some cause => Some (String.append "failed to switch input: " cause)
        | None => None
        end).

(** [SwitchInput]; the result is the text of the error, [None] for
    [nil]. *)
Definition SwitchInput (goos : string) (run : string -> option string) (inputID : string)
  : M Runs (option string) :=
  if negb (String.eqb goos "darwin")
  then mret (Some (String.append "unsupported platform: " goos))
  else switchInputMac run inputID.

End Input.

(** ** The application ([app.go]) *)

Module App.
Import GoSync.

(** [App]: its four services, and the number of goroutines that it has
    started on [StartMonitoring].  (What the methods print on the
    standard output is not modelled, nor is the pause of [onRuleMatch].) *)
Record AppState := {
  windowService : Window.WindowService;
  inputService : Input.Runs;
  matcherService : Matcher.State;
  loggerService : Logger.LogState;
  monitors : nat;
}.

Definition setWindowService (ws : Window.WindowService) (app : AppState) : AppState :=
  {| windowService := ws; inputService := inputService app;
     matcherService := matcherService app; loggerService := loggerService app;
     monitors := monitors app |}.

Definition setInputService (runs : Input.Runs) (app : AppState) : AppState :=
  {| windowService := windowService app; inputService := runs;
     matcherService := matcherService app; loggerService := loggerService app;
     monitors := monitors app |}.

Definition setMatcherService (st : Matcher.State) (app : AppState) : AppState :=
  {| windowService := windowService app; inputService := inputService app;
     matcherService := st; loggerService := loggerService app;
     monitors := monitors app |}.

Definition setLoggerService (st : Logger.LogState) (app : AppState) : AppState :=
  {| windowService := windowService app; inputService := inputService app;
     matcherService := matcherService app; loggerService := st;
     monitors := monitors app |}.

Definition setMonitors (n : nat) (app : AppState) : AppState :=
  {| windowService := windowService app; inputService := inputService app;
     matcherService := matcherService app; loggerService := loggerService app;
     monitors := n |}.

(** A call of a method of one service, made by the application. *)
Definition onService {S A} (project : AppState -> S) (update : S -> AppState -> AppState)
    (m : M S A) : M AppState A := fun app =>
  match m (project app) with
  | Returns a s => Returns a (update s app)
  | Blocks s => Blocks (update s app)
  end.

Definition onInput {A} (m : M Input.Runs A) : M AppState A :=
  onService inputService setInputService m.
Definition onMatcher {A} (m : M Matcher.State A) : M AppState A :=
  onService matcherService setMatcherService m.
Definition onLogger {A} (m : M Logger.LogState A) : M AppState A :=
  onService loggerService setLoggerService m.

(** Unfolds a call made by the application down to the call of the
    service. *)
Ltac on_service :=
  unfold onLogger, onMatcher, onInput, onService;
  cbn [windowService inputService matcherService loggerService monitors
       setWindowService setInputService setMatcherService setLoggerService setMonitors].

(** [onRuleMatch]; [t2] and [t3] are the readings of the clock in the two
    log calls. *)
Definition onRuleMatch (goos : string) (run : string -> option string) (t2 t3 : Z)
    (rule : Matcher.Rule) : M AppState unit :=
  config ← onMatcher Matcher.GetConfig;
  match config with
  | None => mret tt
  | Some _ =>
      onLogger (Logger.LogRuleMatch t2 (Matcher.AppName rule) (Matcher.Input rule));;
      err ← onInput (Input.SwitchInput goos run (Matcher.Input rule));
      match err with
      | Some e =>
          onLogger (Logger.LogInputSwitch t3 (Matcher.AppName rule) (Matcher.Input rule)
                      "switch_failed" (Some e))
      | None =>
          onLogger (Logger.LogInputSwitch t3 (Matcher.AppName rule) (Matcher.Input rule)
                      "switch_success" None)
      end
  end.

(** [onWindowChange], the callback of the monitor; [order] is the order
    in which [MatchWindow] visits the rule map in this call. *)
Definition onWindowChange (goos : string) (run : string -> option string)
    (order : list (string * list Matcher.Rule)) (t1 t2 t3 : Z)
    (window : option Window.WindowInfo) : M AppState unit :=
  match window with
  | None => mret tt
  | Some w =>
      onLogger (Logger.LogWindowChange t1 (Window.AppName w) (Window.WindowName w));;
      rule ← onMatcher (Matcher.MatchWindow order window);
      match rule with
      | Some rule => onRuleMatch goos run t2 t3 rule
      | None => mret tt
      end
  end.

(** [startup]; [describe] is the text of an error of [LoadConfig], [t1]
    and [t2] are the readings of the clock in the log calls.  The
    matcher's rule-match callback is set but never called by the
    services, and is left out as in [Matcher.MatcherService]. *)
Definition startup (describe : Matcher.Error -> string) (t1 t2 : Z) : M AppState unit :=
  onLogger (modify Logger.Start);;
  onLogger (Logger.LogInfo t1 "应用程序启动");;
  err ← onMatcher Matcher.LoadConfig;
  match err with
  | Some e =>
      onLogger (Logger.LogError t2 (String.append "加载配置文件失败: " (describe e)))
  | None =>
      config ← onMatcher Matcher.GetConfig;
      match config with
      | Some c =>
          onLogger (modify (Logger.SetLogging (Matcher.EnableLogging (Matcher.General c))))
      | None => mret tt
      end;;
      modify (fun app =>
                setWindowService (Window.SetWindowChangeCallback (windowService app)) app);;
      modify (fun app => setMonitors (S (monitors app)) app);;
      onLogger (Logger.LogInfo t2 "输入法自动切换服务已启动")
  end.

(** The call of [LogInputSwitch] that follows a switch with the outcome
    [err]. *)
Definition switchCall (rule : Matcher.Rule) (err : option string) : Logger.Call :=
  Logger.CallInputSwitch (Matcher.AppName rule) (Matcher.Input rule)
    (match err with Some _ => "switch_failed" | None => "switch_success" end) err.

(** The application as [NewApp] builds it, around a matcher in the state
    [st]. *)
Definition newApp (st : Matcher.State) : AppState :=
  {| windowService := Window.NewWindowService;
     inputService := [];
     matcherService := st;
     loggerService := {| Logger.ls := Logger.NewLoggerService Logger.sampleLogPath;
                         Logger.files := ∅; Logger.jsonMarshal := Logger.messageOnly |};
     monitors := 0 |}.

(** The application at work: the configuration with the two Chrome rules
    is loaded, the log is open and one monitor runs. *)
Definition running : AppState :=
  {| windowService := Window.watching;
     inputService := [];
     matcherService := Matcher.loaded [Matcher.ruleChrome; Matcher.ruleGoogle] Matcher.quietEnv;
     loggerService := Logger.started;
     monitors := 1 |}.

End App.
(** * Properties *)

(** ** The library functions on sample inputs *)

Module GoLibSpec.

Example Split_commas :
  GoStrings.Split " Safari, Google Chrome ,,Notes" "," = [" Safari"; " Google Chrome "; ""; "Notes"]%string.
Proof. reflexivity. Qed.

Example Split_without_separator : GoStrings.Split "" "," = [""%string].
Proof. reflexivity. Qed.

Example TrimSpace_both_ends : GoStrings.TrimSpace "  Google Chrome  " = "Google Chrome"%string.
Proof. reflexivity. Qed.

Example ToLower_ascii : GoStrings.ToLower "Google Chrome 42" = "google chrome 42"%string.
Proof. reflexivity. Qed.

Example ReplaceAll_star : GoStrings.ReplaceAll "inbox*mail*" "*" ".*" = "inbox.*mail.*"%string.
Proof. reflexivity. Qed.

Example ReplaceAll_dot_star : GoStrings.ReplaceAll "inbox.*mail.*" ".*" "" = "inboxmail"%string.
Proof. reflexivity. Qed.

Example Ext_log : GoPath.Ext "/Users/me/.switch-input/logs/app.log" = ".log"%string.
Proof. reflexivity. Qed.

Example Ext_dot_in_directory : GoPath.Ext "/Users/me/.switch-input/logs/app" = ""%string.
Proof. reflexivity. Qed.

Example formatInt_samples :
  GoFmt.formatInt 4242 = "4242"%string ∧ GoFmt.formatInt 0 = "0"%string
  ∧ GoFmt.formatInt (-7) = "-7"%string.
Proof. repeat split; reflexivity. Qed.

Example generationName_sample :
  Logger.generationName "/Users/me/.switch-input/logs/app.log" 5
  = "/Users/me/.switch-input/logs/app.5.log"%string.
Proof. reflexivity. Qed.

Example windowNameMatches_wildcard :
  Matcher.windowNameMatches "Inbox - Mail" "inbox*mail" = false
  ∧ Matcher.windowNameMatches "InboxMail" "inbox*mail" = true
  ∧ Matcher.windowNameMatches "anything" "" = true.
Proof. repeat split; reflexivity. Qed.

End GoLibSpec.

(** ** The polling monitor *)

Module WindowSpec.
Import Window.

Lemma tick_changed ws window :
  appChanged ws window ->
  tick (QueryOk window) ws =
    {| lastWindow := Some window; checkInterval := checkInterval ws;
       onWindowChange := onWindowChange ws;
       calls := if onWindowChange ws then calls ws ++ [window] else calls ws |}.
Proof.
  unfold appChanged, tick. destruct (lastWindow ws) as [last|]; [|done].
  intros Hne. destruct (String.eqb_spec (AppName last) (AppName window)); done.
Qed.

Lemma tick_same_app ws window :
  ¬ appChanged ws window -> tick (QueryOk window) ws = ws.
Proof.
  unfold appChanged, tick. destruct (lastWindow ws) as [last|]; [|tauto].
  intros Hne. destruct (String.eqb_spec (AppName last) (AppName window)); [done|tauto].
Qed.

(** C7. With a callback registered, a tick whose query succeeds invokes
    the callback (with the new observation, which becomes the last one)
    exactly when the application name differs from the last observation's
    or nothing was observed yet; a tick with the same application name,
    whatever the window name or pid, and a tick whose query fails invoke
    nothing and leave the service as it was. *)
Theorem tick_callback_iff_app_changed (ws : WindowService) (q : QueryResult) :
  onWindowChange ws = true ->
  match q with
  | QueryOk window =>
      (calls (tick q ws) = calls ws ++ [window] <-> appChanged ws window)
      /\ (appChanged ws window -> lastWindow (tick q ws) = Some window)
      /\ (¬ appChanged ws window -> tick q ws = ws)
  | QueryErr _ => tick q ws = ws
  end.
Proof.
  intros Hcb. destruct q as [window|msg]; [|done].
  split; [|split].
  - split.
    + intros Hcalls.
      assert (appChanged ws window \/ ¬ appChanged ws window) as [|Hsame]; [|done|].
      { unfold appChanged. destruct (lastWindow ws) as [last|]; [|tauto].
        destruct (decide (AppName last = AppName window)); tauto. }
      rewrite (tick_same_app _ _ Hsame) in Hcalls.
      apply (f_equal length) in Hcalls. rewrite length_app in Hcalls. simpl in Hcalls. lia.
    + intros Hch. rewrite (tick_changed _ _ Hch). simpl. by rewrite Hcb.
  - intros Hch. by rewrite (tick_changed _ _ Hch).
  - apply tick_same_app.
Qed.

Lemma tick_callback_iff_app_changed_witness :
  onWindowChange watching = true /\ tick (QueryOk safariOtherTab) watching = watching.
Proof.
  split; [reflexivity|].
  apply (tick_callback_iff_app_changed watching (QueryOk safariOtherTab) eq_refl).
  unfold appChanged. simpl. tauto.
Defined.

(** The loop applies [tick] once per tick it receives, until it stops. *)
Lemma StartMonitoring_tick q events ws :
  StartMonitoring (Tick q :: events) ws = StartMonitoring events (tick q ws).
Proof. reflexivity. Qed.

Lemma StartMonitoring_stop events ws : StartMonitoring (Stop :: events) ws = ws.
Proof. reflexivity. Qed.

(** *** The loop as a whole *)

Lemma tick_cases q ws :
  tick q ws = ws
  ∨ ∃ window, q = QueryOk window ∧ appChanged ws window
      ∧ lastWindow (tick q ws) = Some window
      ∧ onWindowChange (tick q ws) = onWindowChange ws
      ∧ calls (tick q ws) = if onWindowChange ws then calls ws ++ [window] else calls ws.
Proof.
  destruct q as [window|msg]; [|by left].
  assert (appChanged ws window ∨ ¬ appChanged ws window) as [Hch|Hsame].
  { unfold appChanged. destruct (lastWindow ws) as [last|]; [|tauto].
    destruct (decide (AppName last = AppName window)); tauto. }
  - right. exists window. rewrite (tick_changed _ _ Hch). done.
  - left. by apply tick_same_app.
Qed.

(** X1. Whatever the loop receives, the windows it hands to the callback
    are appended to the earlier ones and each has another application
    name than the one handed over before it (than the last observation,
    for the first of them): no application is announced twice in a row.
    Without a registered callback nothing is handed over. *)
Theorem StartMonitoring_announces_changes_only
    (events : list LoopEvent) (ws : WindowService) :
  ∃ announced,
    calls (StartMonitoring events ws) = calls ws ++ announced
    ∧ changesOnly (lastWindow ws) announced
    ∧ (onWindowChange ws = false → announced = []).
Proof.
  revert ws. induction events as [|[q|] events IH]; intros ws.
  - exists []. simpl. by rewrite app_nil_r.
  - cbn [StartMonitoring].
    destruct (IH (tick q ws)) as (rest & Hcalls & Hchain & Hnone).
    destruct (tick_cases q ws) as [Hsame|(window & -> & Hch & Hlast & Hcb & Hnew)].
    + rewrite Hsame in *. by exists rest.
    + rewrite Hlast in Hchain. rewrite Hcb in Hnone. rewrite Hcalls, Hnew.
      destruct (onWindowChange ws) eqn:Hflag.
      * exists (window :: rest). rewrite <- app_assoc. split_and!; [done| |done].
        cbn [changesOnly]. split; [|done].
        unfold appChanged in Hch. by destruct (lastWindow ws).
      * exists rest. rewrite (Hnone eq_refl). done.
  - exists []. simpl. by rewrite app_nil_r.
Qed.

(** X2. When the loop returns, the last observation it keeps has the
    application name of the last query that succeeded before the stop
    signal (it may still carry the window title and the process id of an
    earlier query of the same application). *)
Theorem StartMonitoring_tracks_application
    (events : list LoopEvent) (ws : WindowService) :
  AppName <$> lastWindow (StartMonitoring events ws)
  = AppName <$> lastObserved events (lastWindow ws).
Proof.
  revert ws. induction events as [|[[window|msg]|] events IH]; intros ws; [done| | |done].
  - cbn [StartMonitoring lastObserved]. rewrite IH.
    destruct (tick_cases (QueryOk window) ws)
      as [Hsame|(w & [= <-] & Hch & Hlast & _)].
    + rewrite Hsame.
      assert (AppName <$> lastWindow ws = Some (AppName window)) as Hname.
      { apply (f_equal lastWindow) in Hsame. unfold tick in Hsame.
        destruct (lastWindow ws) as [last|]; [|done]. simpl.
        destruct (String.eqb_spec (AppName last) (AppName window)) as [->|]; [done|].
        simpl in Hsame. injection Hsame as Heq. by rewrite Heq. }
      clear IH Hsame. revert Hname. generalize (lastWindow ws). revert window.
      induction events as [|[[w'|msg']|] events IH']; intros window o Hname; simpl;
        [done| done | by apply IH' | done].
    + by rewrite Hlast.
  - cbn [StartMonitoring lastObserved]. by rewrite IH.
Qed.


End WindowSpec.

(** ** The rule index and matching *)

Module MatcherSpec.
Import GoSync Matcher.

Lemma swapIfGreater_length i j l : length (swapIfGreater i j l) = length l.
Proof.
  unfold swapIfGreater. destruct (l !! i), (l !! j); try done.
  case_match; [|done]. by rewrite !length_insert.
Qed.

Lemma swapIfGreater_cases i j l :
  i ≠ j →
  (swapIfGreater i j l = l ∧
     (∀ x y, l !! i = Some x → l !! j = Some y → Priority x <= Priority y))
  ∨ (∃ x y, l !! i = Some x ∧ l !! j = Some y ∧ Priority y < Priority x ∧
       swapIfGreater i j l !! i = Some y ∧ swapIfGreater i j l !! j = Some x ∧
       ∀ k, k ≠ i → k ≠ j → swapIfGreater i j l !! k = l !! k).
Proof.
  intros Hij. unfold swapIfGreater.
  destruct (l !! i) as [x|] eqn:Hi; [|left; split; [done|congruence]].
  destruct (l !! j) as [y|] eqn:Hj; [|left; split; [done|congruence]].
  destruct (Z.gtb_spec (Priority x) (Priority y)) as [Hgt|Hle].
  - right. exists x, y. split_and!; try done.
    + rewrite list_lookup_insert_ne by done. apply list_lookup_insert_eq.
      by eapply lookup_lt_Some.
    + apply list_lookup_insert_eq. rewrite length_insert. by eapply lookup_lt_Some.
    + intros k Hki Hkj. by rewrite !list_lookup_insert_ne.
  - left. split; [done|]. intros ?? [= <-] [= <-]. lia.
Qed.

Lemma swapIfGreater_perm i j l : swapIfGreater i j l ≡ₚ l.
Proof.
  destruct (decide (i = j)) as [->|Hij].
  { unfold swapIfGreater. destruct (l !! j) as [x|]; [|done].
    destruct (Z.gtb_spec (Priority x) (Priority x)); [lia|done]. }
  destruct (swapIfGreater_cases i j l Hij) as [[-> _]|(x & y & Hi & Hj & _ & Hi' & Hj' & Hk)]; [done|].
  apply Permutation_inj. split; [apply swapIfGreater_length|].
  exists (λ k, if decide (k = i) then j else if decide (k = j) then i else k).
  split.
  - intros a b. repeat case_decide; congruence.
  - intros k. repeat case_decide; subst; try congruence. by apply Hk.
Qed.

(* what the inner loop has established after its first [m] turns *)
Lemma inner_turns i l m :
  let rs := foldl (fun rs j => swapIfGreater i j rs) l (seq (S i) m) in
  length rs = length l ∧ rs ≡ₚ l
  ∧ (∀ a, (a < i)%nat → rs !! a = l !! a)
  ∧ (∀ b y, (i ≤ b)%nat → rs !! b = Some y → ∃ b', (i ≤ b')%nat ∧ l !! b' = Some y)
  ∧ (∀ k x y, (i < k < S i + m)%nat → rs !! i = Some x → rs !! k = Some y →
              Priority x <= Priority y).
Proof.
  induction m as [|m IH]; cbv zeta.
  { simpl. split_and!; try done; [eauto|lia]. }
  rewrite seq_S, foldl_app. cbn [foldl].
  set (rs := foldl _ l (seq (S i) m)) in *. cbv zeta in IH.
  destruct IH as (Hlen & Hperm & Hlow & Hfrom & Hmin).
  set (j := (S i + m)%nat).
  assert (i ≠ j) as Hij by lia.
  destruct (swapIfGreater_cases i j rs Hij)
    as [[-> Hle]|(x & y & Hi & Hj & Hlt & Hi' & Hj' & Hk)].
  - split_and!; try done. intros k x y Hk Hx Hy.
    destruct (decide (k = j)) as [->|]; [by eapply Hle|]. eapply Hmin; [|done..]. lia.
  - split_and!.
    + by rewrite swapIfGreater_length.
    + by rewrite swapIfGreater_perm.
    + intros a Ha. rewrite Hk by lia. by apply Hlow.
    + intros b z Hb Hz.
      destruct (decide (b = i)) as [->|]; [|destruct (decide (b = j)) as [->|]].
      * rewrite Hi' in Hz. injection Hz as <-. apply (Hfrom j); [lia|done].
      * rewrite Hj' in Hz. injection Hz as <-. by apply (Hfrom i).
      * rewrite Hk in Hz by done. by apply (Hfrom b).
    + intros k x' y' Hkr Hx Hy. rewrite Hi' in Hx. injection Hx as <-.
      destruct (decide (k = j)) as [->|].
      * rewrite Hj' in Hy. injection Hy as <-. lia.
      * rewrite Hk in Hy by lia.
        assert (Priority x <= Priority y'); [|lia].
        eapply (Hmin k); [lia|done..].
Qed.

Lemma outer_turns l m :
  (m ≤ length l - 1)%nat →
  let rs := foldl (fun rs i => innerLoop (length l) i rs) l (seq 0 m) in
  length rs = length l ∧ rs ≡ₚ l
  ∧ (∀ a b x y, (a < m)%nat → (a < b)%nat → rs !! a = Some x → rs !! b = Some y →
                Priority x <= Priority y).
Proof.
  induction m as [|m IH]; cbv zeta; intros Hm.
  { simpl. split_and!; try done. lia. }
  rewrite seq_S, foldl_app. cbn [foldl].
  set (rs := foldl _ l (seq 0 m)) in *.
  destruct IH as (Hlen & Hperm & Hsorted); [lia|].
  unfold innerLoop.
  destruct (inner_turns m rs (length l - S m)) as (Hlen' & Hperm' & Hlow & Hfrom & Hmin).
  cbv zeta in *. rewrite Nat.add_0_l.
  replace (S m + (length l - S m))%nat with (length l) in Hmin by lia.
  set (rs' := foldl _ rs _) in *.
  split_and!.
  - congruence.
  - by rewrite Hperm'.
  - intros a b x y Ha Hab Hx Hy.
    destruct (decide (a = m)) as [->|].
    + apply (Hmin b); [|done..]. apply lookup_lt_Some in Hy. lia.
    + rewrite Hlow in Hx by lia.
      destruct (decide (b < m)%nat).
      * rewrite Hlow in Hy by lia. eapply (Hsorted a b); [lia|lia|done..].
      * destruct (Hfrom b y) as (b' & Hb' & Hy'); [lia|done|].
        eapply (Hsorted a b'); [lia|lia|done..].
Qed.

Lemma sortByPriority_perm l : sortByPriority l ≡ₚ l.
Proof. apply (outer_turns l (length l - 1)). lia. Qed.

Lemma sortByPriority_length l : length (sortByPriority l) = length l.
Proof. apply (outer_turns l (length l - 1)). lia. Qed.

Lemma sortByPriority_ascending l : ascending (sortByPriority l).
Proof.
  intros a b x y Hab Hx Hy.
  destruct (outer_turns l (length l - 1)) as (Hlen & _ & Hsorted); [lia|].
  apply (Hsorted a b); [|done..].
  apply lookup_lt_Some in Hy. fold (sortByPriority l) in Hlen. lia.
Qed.

Lemma swapIfGreater_ascending i j l :
  (i < j)%nat → ascending l → swapIfGreater i j l = l.
Proof.
  intros Hij Hasc. unfold swapIfGreater.
  destruct (l !! i) as [x|] eqn:Hi; [|done].
  destruct (l !! j) as [y|] eqn:Hj; [|done].
  destruct (Z.gtb_spec (Priority x) (Priority y)); [|done].
  specialize (Hasc i j x y Hij Hi Hj). lia.
Qed.

Lemma sortByPriority_ascending_id l : ascending l → sortByPriority l = l.
Proof.
  intros Hasc. unfold sortByPriority.
  generalize (length l). intros n. generalize (seq 0 (n - 1)). intros idx.
  induction idx as [|i idx IH]; simpl; [done|].
  assert (innerLoop n i l = l) as ->; [|done].
  unfold innerLoop.
  assert (∀ js, Forall (λ j, i < j)%nat js →
               foldl (λ rs j, swapIfGreater i j rs) l js = l) as Hin.
  { intros js Hjs. induction Hjs as [|j js Hj _ IHjs]; simpl; [done|].
    by rewrite swapIfGreater_ascending. }
  apply Hin. apply Forall_seq. intros; lia.
Qed.

Lemma find_first {A} (f : A → bool) (l : list A) x :
  List.find f l = Some x →
  ∃ i, l !! i = Some x ∧ f x = true ∧ ∀ j y, (j < i)%nat → l !! j = Some y → f y = false.
Proof.
  induction l as [|z l IH]; simpl; [done|].
  destruct (f z) eqn:Hz.
  - intros [= <-]. exists 0%nat. split_and!; [done..|]. intros; lia.
  - intros Hx. destruct (IH Hx) as (i & Hi & Hfx & Hbefore).
    exists (S i). split_and!; [done..|].
    intros [|j] y Hj Hy; simpl in Hy; [congruence|]. apply (Hbefore j); [lia|done].
Qed.

Lemma find_is_Some {A} (f : A → bool) (l : list A) x :
  x ∈ l → f x = true → is_Some (List.find f l).
Proof.
  intros Hx Hfx. destruct (List.find f l) eqn:Hfind; [done|].
  apply list_elem_of_In in Hx. by rewrite (find_none _ _ Hfind x Hx) in Hfx.
Qed.

(* the first window match of an ascending list has the least priority among
   the window matches *)
Lemma firstWindowMatch_ascending window rules best :
  ascending rules →
  firstWindowMatch window rules = Some best →
  best ∈ rules
  ∧ windowNameMatches (Window.WindowName window) (WindowName best) = true
  ∧ ∀ rule, rule ∈ rules →
            windowNameMatches (Window.WindowName window) (WindowName rule) = true →
            Priority best <= Priority rule.
Proof.
  intros Hasc Hfind. apply find_first in Hfind as (i & Hi & Hm & Hbefore).
  split_and!; [by eapply list_elem_of_lookup_2|done|].
  intros rule [k Hk]%list_elem_of_lookup Hrule.
  destruct (decide (k < i)%nat) as [Hlt|Hge].
  - rewrite (Hbefore k rule Hlt Hk) in Hrule. done.
  - destruct (decide (k = i)) as [->|]; [by simplify_eq|].
    apply (Hasc i k); [lia|done..].
Qed.

Lemma addUnder_one rule m field name :
  addUnder rule m field !! name =
    if fieldIs name field then Some (default [] (m !! name) ++ [rule]) else m !! name.
Proof.
  unfold addUnder, fieldIs.
  destruct (String.eqb_spec (GoStrings.TrimSpace field) "") as [Hempty|Hfield]; simpl.
  - by rewrite andb_false_r.
  - rewrite andb_true_r.
    destruct (String.eqb_spec (GoStrings.TrimSpace field) name) as [->|Hne].
    + by rewrite lookup_insert_eq.
    + by rewrite lookup_insert_ne.
Qed.

Lemma addUnder_lookup rule fields m name :
  foldl (addUnder rule) m fields !! name =
    match (fun _ => rule) <$> List.filter (fieldIs name) fields with
    | [] => m !! name
    | occ => Some (default [] (m !! name) ++ occ)
    end.
Proof.
  revert m. induction fields as [|field fields IH]; intros m; [done|].
  cbn [foldl List.filter]. rewrite IH, addUnder_one.
  destruct (fieldIs name field); [|done].
  rewrite fmap_cons.
  destruct (_ <$> List.filter _ fields); simpl; [done|].
  by rewrite <- app_assoc.
Qed.

Lemma addRuleToMap_one rule m name :
  addRuleToMap m rule !! name =
    match occurrences name rule with
    | [] => m !! name
    | occ => Some (default [] (m !! name) ++ occ)
    end.
Proof.
  unfold addRuleToMap, occurrences. destruct (Enabled rule); [|done].
  apply addUnder_lookup.
Qed.

Lemma addRuleToMap_lookup rules m name :
  foldl addRuleToMap m rules !! name =
    match candidates rules name with
    | [] => m !! name
    | occ => Some (default [] (m !! name) ++ occ)
    end.
Proof.
  revert m. induction rules as [|rule rules IH]; intros m; [done|].
  cbn [foldl]. rewrite IH, addRuleToMap_one. unfold candidates. rewrite bind_cons.
  fold (candidates rules name).
  destruct (occurrences name rule) as [|r occ]; simpl; [done|].
  destruct (candidates rules name); simpl; [by rewrite app_nil_r|].
  by rewrite <- app_assoc.
Qed.

Lemma buildRuleMap_lookup st c name :
  config (ms st) = Some c →
  ruleMap (ms (buildRuleMap st)) !! name =
    match candidates (elems st (Rules c)) name with
    | [] => None
    | occ => Some (sortByPriority occ)
    end.
Proof.
  intros Hc. unfold buildRuleMap. rewrite Hc. simpl.
  rewrite lookup_fmap, addRuleToMap_lookup, lookup_empty.
  by destruct (candidates _ _).
Qed.

Lemma exactMatch_buildRuleMap st c window :
  config (ms st) = Some c →
  exactMatch (ruleMap (ms (buildRuleMap st))) window =
    firstWindowMatch window
      (sortByPriority (candidates (elems st (Rules c)) (Window.AppName window))).
Proof.
  intros Hc. unfold exactMatch. rewrite (buildRuleMap_lookup _ _ _ Hc).
  by destruct (candidates _ _).
Qed.

(** [MatchWindow] takes and releases the read lock, and computes the two
    phases in between. *)
Lemma MatchWindow_run order window st :
  writer (ruleMutex (ms st)) = false →
  MatchWindow order window st =
    Returns match window with
            | None => None
            | Some w =>
                match exactMatch (ruleMap (ms st)) w with
                | Some rule => Some rule
                | None => fuzzyMatch order w
                end
            end st.
Proof.
  destruct st as [[c path m [w r]] arrs nxt fs e]. simpl. intros ->.
  reflexivity.
Qed.

Lemma splitFrom_no_sep sep s :
  GoStrings.Contains s sep = false → GoStrings.splitFrom sep s 0 = [s].
Proof.
  induction s as [|c s IH]; [done|].
  cbn [GoStrings.Contains GoStrings.splitFrom].
  intros [Hp Hc]%orb_false_elim. rewrite Hp, (IH Hc). done.
Qed.

Lemma plainName_occurrences name rule :
  plainName name → Enabled rule = true → AppName rule = name →
  occurrences name rule = [rule].
Proof.
  intros (Hne & Htrim & Hcomma) Hen Happ. unfold occurrences. rewrite Hen, Happ.
  unfold GoStrings.Split. rewrite (splitFrom_no_sep _ _ Hcomma). simpl.
  unfold fieldIs. rewrite Htrim, String.eqb_refl. simpl.
  destruct (String.eqb_spec name ""); done.
Qed.

(** An enabled rule whose application pattern is the plain name of the
    observed application is a candidate of the exact phase. *)
Lemma plainName_candidate rules name rule :
  plainName name → rule ∈ rules → Enabled rule = true → AppName rule = name →
  rule ∈ candidates rules name.
Proof.
  intros Hplain Hin Hen Happ. unfold candidates. apply list_elem_of_bind.
  exists rule. split; [|done]. rewrite plainName_occurrences by done. apply list_elem_of_here.
Qed.

(** Candidates are enabled rules of the list. *)
Lemma candidates_elem rules name rule :
  rule ∈ candidates rules name → rule ∈ rules ∧ Enabled rule = true.
Proof.
  unfold candidates. intros (r & Hocc & Hr)%list_elem_of_bind.
  unfold occurrences in Hocc. destruct (Enabled r) eqn:Hen; [|by apply elem_of_nil in Hocc].
  apply list_elem_of_fmap in Hocc as (f & -> & _). done.
Qed.

(** C1 (amended). When some candidate of the exact phase matches the
    window, [MatchWindow] on the freshly built index returns a candidate
    that matches the window and whose priority value is the lowest among
    the candidates that match.  It is the first window match of the
    candidates as the exchange sort leaves them, which is the first
    window match in the order of the rule list whenever the candidates
    already come with ascending priorities. *)
Theorem MatchWindow_exact_lowest_priority
    (st : State) (c : Config) (order : list (string * list Rule))
    (window : Window.WindowInfo) (rule : Rule) :
  config (ms st) = Some c →
  writer (ruleMutex (ms st)) = false →
  rule ∈ candidates (elems st (Rules c)) (Window.AppName window) →
  windowNameMatches (Window.WindowName window) (WindowName rule) = true →
  ∃ best,
    MatchWindow order (Some window) (buildRuleMap st) = Returns (Some best) (buildRuleMap st)
    ∧ best ∈ candidates (elems st (Rules c)) (Window.AppName window)
    ∧ windowNameMatches (Window.WindowName window) (WindowName best) = true
    ∧ (∀ other, other ∈ candidates (elems st (Rules c)) (Window.AppName window) →
                windowNameMatches (Window.WindowName window) (WindowName other) = true →
                Priority best <= Priority other)
    ∧ firstWindowMatch window
        (sortByPriority (candidates (elems st (Rules c)) (Window.AppName window))) = Some best
    ∧ (ascending (candidates (elems st (Rules c)) (Window.AppName window)) →
       firstWindowMatch window (candidates (elems st (Rules c)) (Window.AppName window))
         = Some best).
Proof.
  intros Hc Hmu Hcand Hwin.
  set (cands := candidates (elems st (Rules c)) (Window.AppName window)) in *.
  destruct (find_is_Some
              (fun r => windowNameMatches (Window.WindowName window) (WindowName r))
              (sortByPriority cands) rule) as [best Hbest]; [|done|].
  { by rewrite sortByPriority_perm. }
  fold (firstWindowMatch window (sortByPriority cands)) in Hbest.
  exists best.
  destruct (firstWindowMatch_ascending _ _ _ (sortByPriority_ascending cands) Hbest)
    as (Hin & Hbwin & Hleast).
  split_and!.
  - rewrite MatchWindow_run.
    + rewrite (exactMatch_buildRuleMap _ _ _ Hc). fold cands. by rewrite Hbest.
    + unfold buildRuleMap. rewrite Hc. done.
  - by rewrite <- (sortByPriority_perm cands).
  - done.
  - intros other Hother. apply Hleast. by rewrite sortByPriority_perm.
  - done.
  - intros Hasc. by rewrite <- (sortByPriority_ascending_id _ Hasc) at 1.
Qed.

Lemma MatchWindow_exact_lowest_priority_witness :
  ∃ best,
    MatchWindow [] (Some safariWindow) (buildRuleMap (loaded tieRules quietEnv))
      = Returns (Some best) (buildRuleMap (loaded tieRules quietEnv))
    ∧ Priority best <= Priority rulePinyin.
Proof.
  destruct (MatchWindow_exact_lowest_priority
              (loaded tieRules quietEnv)
              {| Rules := {| base := 0; len := 3; cap := 3 |};
                 General := defaultGeneral; LastModified := "4242" |}
              [] safariWindow rulePinyin)
    as (best & Hrun & Hcand & _ & Hleast & _).
  - vm_compute. reflexivity.
  - vm_compute. reflexivity.
  - vm_compute. apply list_elem_of_here.
  - vm_compute. reflexivity.
  - exists best. split; [exact Hrun|].
    apply Hleast; [vm_compute; apply list_elem_of_here | vm_compute; reflexivity].
Defined.

(** C1, as stated, fails: [rulePinyin] and [ruleAbc] are enabled rules
    for the observed application, both match the window and share the
    lowest priority among the rules that do, and [rulePinyin] comes first
    in the rule list; [MatchWindow] returns [ruleAbc], whatever the order
    in which the map is visited. *)
Lemma MatchWindow_equal_priority_counterexample :
  (rulePinyin ∈ tieRules ∧ Enabled rulePinyin = true
   ∧ AppName rulePinyin = Window.AppName safariWindow)
  ∧ promisedMatch tieRules safariWindow = Some rulePinyin
  ∧ (∀ order, returned (MatchWindow order (Some safariWindow) (loaded tieRules quietEnv))
              = Some (Some ruleAbc))
  ∧ rulePinyin ≠ ruleAbc.
Proof.
  split_and!.
  - apply list_elem_of_here.
  - reflexivity.
  - reflexivity.
  - vm_compute. reflexivity.
  - intros order. rewrite MatchWindow_run by (vm_compute; reflexivity).
    vm_compute. reflexivity.
  - discriminate.
Qed.

Lemma fuzzyMatch_Some entries window rule :
  fuzzyMatch entries window = Some rule →
  ∃ entry, entry ∈ entries ∧ fuzzyAnswer window entry = Some rule.
Proof.
  induction entries as [|[appName rules] entries IH]; simpl; [done|].
  destruct (appNameMatches (Window.AppName window) appName) eqn:Happ.
  - destruct (firstWindowMatch window rules) as [r|] eqn:Hfirst.
    + intros [= <-]. exists (appName, rules). split; [apply list_elem_of_here|].
      unfold fuzzyAnswer. simpl. by rewrite Happ.
    + intros (e & He & Hans)%IH. exists e. split; [by apply list_elem_of_further|done].
  - intros (e & He & Hans)%IH. exists e. split; [by apply list_elem_of_further|done].
Qed.

Lemma fuzzyMatch_None entries window entry :
  fuzzyMatch entries window = None → entry ∈ entries → fuzzyAnswer window entry = None.
Proof.
  induction entries as [|[appName rules] entries IH]; simpl; [by intros _ ?%elem_of_nil|].
  unfold fuzzyAnswer at 1.
  intros Hnone [->|Hin]%elem_of_cons; simpl.
  - destruct (appNameMatches _ _); [|done]. by destruct (firstWindowMatch window rules).
  - apply IH; [|done].
    destruct (appNameMatches _ _); [|done]. by destruct (firstWindowMatch window rules).
Qed.

Lemma fuzzyMatch_order st window o1 o2 :
  iterationOrder st o1 → iterationOrder st o2 → oneFuzzyAnswer st window →
  fuzzyMatch o1 window = fuzzyMatch o2 window.
Proof.
  unfold iterationOrder. intros H1 H2 Hone.
  destruct (fuzzyMatch o1 window) as [r1|] eqn:Hr1, (fuzzyMatch o2 window) as [r2|] eqn:Hr2;
    [| | |done].
  - apply fuzzyMatch_Some in Hr1 as (e1 & He1 & Ha1).
    apply fuzzyMatch_Some in Hr2 as (e2 & He2 & Ha2).
    f_equal. apply (Hone e1 e2); [by rewrite <- H1|by rewrite <- H2|done..].
  - apply fuzzyMatch_Some in Hr1 as (e1 & He1 & Ha1).
    rewrite (fuzzyMatch_None _ _ e1 Hr2) in Ha1; [done|]. by rewrite H2, <- H1.
  - apply fuzzyMatch_Some in Hr2 as (e2 & He2 & Ha2).
    rewrite (fuzzyMatch_None _ _ e2 Hr1) in Ha2; [done|]. by rewrite H1, <- H2.
Qed.

(** C8 (amended). [MatchWindow] changes nothing, and its result is fixed
    by the observation, the index and the order in which the map is
    visited.  Two calls on the same index agree, whatever the two orders,
    when the observation is resolved by the exact phase, and also in the
    fuzzy phase when every key that answers there answers with the same
    rule. *)
Theorem MatchWindow_same_result
    (st : State) (window : option Window.WindowInfo)
    (o1 o2 : list (string * list Rule)) :
  writer (ruleMutex (ms st)) = false →
  iterationOrder st o1 → iterationOrder st o2 →
  match window with
  | None => True
  | Some w => is_Some (exactMatch (ruleMap (ms st)) w) ∨ oneFuzzyAnswer st w
  end →
  MatchWindow o1 window st = MatchWindow o2 window st
  ∧ final (MatchWindow o1 window st) = st.
Proof.
  intros Hmu H1 H2 Hres. rewrite !MatchWindow_run by done. split; [|done].
  destruct window as [w|]; [|done].
  destruct (exactMatch (ruleMap (ms st)) w) as [rule|]; [done|].
  destruct Hres as [[? [=]]|Hone]. f_equal. by apply (fuzzyMatch_order st).
Qed.

Lemma MatchWindow_same_result_witness :
  MatchWindow chromeFirst (Some chromeWindow) (loaded [ruleChrome; ruleGoogle] quietEnv)
  = MatchWindow googleFirst (Some chromeWindow) (loaded [ruleChrome; ruleGoogle] quietEnv)
  ∧ final (MatchWindow chromeFirst (Some chromeWindow)
             (loaded [ruleChrome; ruleGoogle] quietEnv))
    = loaded [ruleChrome; ruleGoogle] quietEnv.
Proof.
  apply (MatchWindow_same_result (loaded [ruleChrome; ruleGoogle] quietEnv)
           (Some chromeWindow) chromeFirst googleFirst).
  - vm_compute. reflexivity.
  - unfold iterationOrder. vm_compute. apply perm_swap.
  - unfold iterationOrder. vm_compute. reflexivity.
  - left. vm_compute. eexists. reflexivity.
Defined.

(** C8, as stated, fails in the fuzzy phase: on one index and one
    observation, two orders in which Go may visit the map give two
    different rules. *)
Lemma MatchWindow_fuzzy_order_counterexample :
  iterationOrder (loaded [ruleChrome; ruleGoogle] quietEnv) chromeFirst
  ∧ iterationOrder (loaded [ruleChrome; ruleGoogle] quietEnv) googleFirst
  ∧ returned (MatchWindow chromeFirst (Some canaryWindow)
                (loaded [ruleChrome; ruleGoogle] quietEnv)) = Some (Some ruleChrome)
  ∧ returned (MatchWindow googleFirst (Some canaryWindow)
                (loaded [ruleChrome; ruleGoogle] quietEnv)) = Some (Some ruleGoogle)
  ∧ ruleChrome ≠ ruleGoogle.
Proof.
  split_and!.
  - unfold iterationOrder. vm_compute. apply perm_swap.
  - unfold iterationOrder. vm_compute. reflexivity.
  - vm_compute. reflexivity.
  - vm_compute. reflexivity.
  - discriminate.
Qed.

(** *** The configuration store *)

Lemma mutex_unlocked (mu : RWMutex) :
  writer mu || negb (Nat.eqb (readers mu) 0) = false → mu = unlocked.
Proof.
  destruct mu as [w r]. simpl. intros [-> Hr]%orb_false_elim.
  apply negb_false_iff, Nat.eqb_eq in Hr. by subst.
Qed.

Lemma GetConfig_run st :
  writer (ruleMutex (ms st)) = false → GetConfig st = Returns (config (ms st)) st.
Proof.
  destruct st as [[c path m [w r]] arrs nxt fs e]. simpl. intros ->. reflexivity.
Qed.

(** The state that a successful [SaveConfig] leaves. *)
Lemma SaveConfig_run st c :
  ruleMutex (ms st) = unlocked →
  SaveConfig c st =
    if mkdirFails (env st) then Returns (Some ErrCreateDir) st
    else if writeFails (env st) then Returns (Some ErrWriteFile) st
    else
      let c' := setLastModified (GoFmt.formatInt (pid (env st))) c in
      Returns None
        (setRuleMutex unlocked
           (buildRuleMap
              (setConfig (Some c')
                 (setFile (configPath (ms st))
                    (Json {| docRules := elems st (Rules c); docGeneral := General c;
                             docLastModified := GoFmt.formatInt (pid (env st)) |})
                    st)))).
Proof.
  destruct st as [[c0 path m mu] arrs nxt fs e]. simpl. intros ->.
  unfold SaveConfig. run_monad.
  destruct (mkdirFails e); [done|]. destruct (writeFails e); [done|].
  simpl. unfold buildRuleMap. simpl. reflexivity.
Qed.

Lemma SaveConfig_returns st c err st' :
  SaveConfig c st = Returns err st' → ruleMutex (ms st) = unlocked.
Proof.
  unfold SaveConfig. run_monad.
  destruct (writer _ || negb _) eqn:Hmu; [done|]. intros _. by apply mutex_unlocked.
Qed.

(** C9. A [SaveConfig] that succeeds leaves, in memory and on disk, a
    [lastModified] equal to the decimal text of the process id; the
    process id does not change, so every successful save of the process
    leaves the same text. *)
Theorem SaveConfig_lastModified_is_pid (st : State) (c : Config) (st' : State) :
  SaveConfig c st = Returns None st' →
  LastModified <$> config (ms st') = Some (GoFmt.formatInt (pid (env st)))
  ∧ (∃ doc, files st' !! configPath (ms st') = Some (Json doc)
            ∧ docLastModified doc = GoFmt.formatInt (pid (env st)))
  ∧ pid (env st') = pid (env st)
  ∧ ∀ c2 st2 st2',
      pid (env st2) = pid (env st) →
      SaveConfig c2 st2 = Returns None st2' →
      LastModified <$> config (ms st2') = LastModified <$> config (ms st').
Proof.
  assert (∀ st c st', SaveConfig c st = Returns None st' →
            LastModified <$> config (ms st') = Some (GoFmt.formatInt (pid (env st)))
            ∧ (∃ doc, files st' !! configPath (ms st') = Some (Json doc)
                      ∧ docLastModified doc = GoFmt.formatInt (pid (env st)))
            ∧ pid (env st') = pid (env st)) as Hone.
  { clear. intros st c st' Hsave.
    pose proof (SaveConfig_returns _ _ _ _ Hsave) as Hmu.
    rewrite (SaveConfig_run _ _ Hmu) in Hsave.
    destruct (mkdirFails (env st)); [done|]. destruct (writeFails (env st)); [done|].
    injection Hsave as <-. unfold buildRuleMap. simpl. split_and!; [done| |done].
    eexists. split; [apply lookup_insert_eq|done]. }
  intros Hsave. destruct (Hone _ _ _ Hsave) as (Hmem & Hdisk & Hpid).
  split_and!; [done..|].
  intros c2 st2 st2' Hpid2 Hsave2. destruct (Hone _ _ _ Hsave2) as (Hmem2 & _ & _).
  by rewrite Hmem, Hmem2, Hpid2.
Qed.

Lemma SaveConfig_lastModified_is_pid_witness :
  LastModified <$> config (ms (final (SaveConfig
      {| Rules := nilSlice; General := defaultGeneral; LastModified := "yesterday" |}
      (firstRun quietEnv)))) = Some "4242"%string.
Proof.
  refine (proj1 (SaveConfig_lastModified_is_pid (firstRun quietEnv)
            {| Rules := nilSlice; General := defaultGeneral; LastModified := "yesterday" |}
            _ _)).
  vm_compute. reflexivity.
Defined.

(** C5 (the code departs from it). Without a configuration file,
    [LoadConfig] takes the write lock, finds the file missing and calls
    [createDefaultConfig], whose [SaveConfig] waits for the same lock:
    the call never returns, and nothing is written or loaded. *)
Theorem LoadConfig_without_file_blocks (st : State) :
  ruleMutex (ms st) = unlocked →
  files st !! configPath (ms st) = None →
  ∃ st', LoadConfig st = Blocks st'
         ∧ files st' = files st
         ∧ config (ms st') = config (ms st)
         ∧ ruleMap (ms st') = ruleMap (ms st).
Proof.
  destruct st as [[c0 path m mu] arrs nxt fs e]. simpl. intros -> Hfile.
  unfold LoadConfig. run_monad. rewrite Hfile.
  unfold createDefaultConfig, SaveConfig, allocArray. run_monad.
  eexists. split; [reflexivity|]. done.
Qed.

Lemma LoadConfig_without_file_blocks_witness :
  ∃ st', LoadConfig (firstRun quietEnv) = Blocks st' ∧ files st' = ∅.
Proof.
  destruct (LoadConfig_without_file_blocks (firstRun quietEnv) eq_refl eq_refl)
    as (st' & Hrun & Hfiles & _).
  exists st'. split; [exact Hrun|exact Hfiles].
Defined.

(** C6. When the configuration file holds malformed JSON, [LoadConfig]
    returns the parse error and leaves the whole state, in particular the
    loaded configuration and the rule index, as it was. *)
Theorem LoadConfig_malformed_keeps_state (st : State) (bytes : string) :
  ruleMutex (ms st) = unlocked →
  readFails (env st) = false →
  files st !! configPath (ms st) = Some (Malformed bytes) →
  LoadConfig st = Returns (Some ErrParse) st.
Proof.
  destruct st as [[c0 path m mu] arrs nxt fs e]. simpl. intros -> Hread Hfile.
  unfold LoadConfig. run_monad. rewrite Hfile. simpl. rewrite Hread, Hfile. reflexivity.
Qed.

Lemma LoadConfig_malformed_keeps_state_witness :
  LoadConfig (damagedFile [ruleChrome] quietEnv)
  = Returns (Some ErrParse) (damagedFile [ruleChrome] quietEnv)
  ∧ liveRules (damagedFile [ruleChrome] quietEnv) = Some [ruleChrome].
Proof.
  split.
  - apply (LoadConfig_malformed_keeps_state (damagedFile [ruleChrome] quietEnv) "{rules: [").
    + vm_compute. reflexivity.
    + vm_compute. reflexivity.
    + vm_compute. reflexivity.
  - vm_compute. reflexivity.
Defined.

Lemma elems_arrays st1 st2 s : arrays st1 = arrays st2 → elems st1 s = elems st2 s.
Proof. unfold elems, arrayOf. by intros ->. Qed.

Lemma elems_length st s : wfSlice st s → length (elems st s) = len s.
Proof. intros (Hlen & Harr & _). unfold elems. rewrite length_take. lia. Qed.

(** [append] gives a slice that shows the old elements followed by the new
    ones; it touches neither the service nor the files, and a slice of the
    same array that is no longer than the old one still shows what it
    showed. *)
Lemma append_run st s more :
  wfSlice st s →
  ∃ s' st', append s more st = Returns s' st'
    ∧ elems st' s' = elems st s ++ more
    ∧ ms st' = ms st ∧ files st' = files st ∧ env st' = env st
    ∧ (∀ t, base t = base s → (len t ≤ len s)%nat → elems st' t = elems st t).
Proof.
  intros (Hlen & Harr & Hbase). unfold append.
  destruct (Nat.leb_spec (len s + length more) (cap s)) as [Hfit|Hgrow].
  - eexists _, _. split; [reflexivity|]. split_and!; try done.
    + unfold elems, arrayOf, setArray. simpl. rewrite lookup_insert_eq. simpl.
      fold (arrayOf st s). rewrite app_assoc. apply take_app_length'.
      rewrite length_app, length_take. lia.
    + intros t Ht Hlt. unfold elems, arrayOf, setArray. simpl.
      rewrite Ht, lookup_insert_eq. simpl. fold (arrayOf st s).
      rewrite take_app_le by (rewrite length_take; lia).
      rewrite take_take. f_equal. lia.
  - unfold alloc, allocArray. eexists _, _. split; [reflexivity|]. split_and!; try done.
    + unfold elems at 1, arrayOf. simpl. rewrite lookup_insert_eq. simpl.
      apply take_app_length.
    + intros t Ht Hlt. unfold elems, arrayOf. simpl.
      rewrite lookup_insert_ne by lia. done.
Qed.

(** C10 (amended). [AddRule] stores and persists the rule at the end of
    the list, with the priority [len(rules) + 1] when it came with
    priority 0 and unchanged otherwise; the stored priority is never 0.
    The default [len(rules) + 1] is the lowest precedence when no rule of
    the list has a priority value above [len(rules)]. *)
Theorem AddRule_priority (st : State) (c : Config) (rule : Rule) :
  config (ms st) = Some c →
  wfSlice st (Rules c) →
  ruleMutex (ms st) = unlocked →
  mkdirFails (env st) = false →
  writeFails (env st) = false →
  let stored :=
    if Priority rule =? 0
    then setPriority (Z.of_nat (length (elems st (Rules c))) + 1) rule
    else rule in
  ∃ st', AddRule rule st = Returns None st'
    ∧ liveRules st' = Some (elems st (Rules c) ++ [stored])
    ∧ (∃ doc, files st' !! configPath (ms st) = Some (Json doc)
              ∧ docRules doc = elems st (Rules c) ++ [stored])
    ∧ Priority stored ≠ 0
    ∧ (Priority rule ≠ 0 → stored = rule)
    ∧ (Priority rule = 0 →
       (∀ other, other ∈ elems st (Rules c) →
                 Priority other <= Z.of_nat (length (elems st (Rules c)))) →
       ∀ other, other ∈ elems st (Rules c) → Priority other < Priority stored).
Proof.
  intros Hc Hwf Hmu Hmk Hwr stored.
  assert (stored = if Priority rule =? 0
                   then setPriority (Z.of_nat (len (Rules c)) + 1) rule else rule) as Hstored.
  { unfold stored. by rewrite (elems_length _ _ Hwf). }
  destruct (append_run st (Rules c) [stored] Hwf)
    as (s' & st1 & Happ & Helems & Hms & Hfiles & Henv & _).
  unfold AddRule. unfold mbind at 1, M_bind at 1.
  rewrite GetConfig_run by (by rewrite Hmu). rewrite Hc.
  unfold mbind at 1, M_bind at 1. rewrite <- Hstored, Happ.
  rewrite SaveConfig_run by (by rewrite Hms).
  rewrite Henv, Hmk, Hwr. eexists. split; [reflexivity|].
  split_and!.
  - unfold liveRules, buildRuleMap. simpl. f_equal.
    rewrite <- Helems. by apply elems_arrays.
  - eexists. rewrite Hms. split; [apply lookup_insert_eq|]. done.
  - unfold stored. destruct (Z.eqb_spec (Priority rule) 0); simpl; lia.
  - intros Hne. unfold stored. by destruct (Z.eqb_spec (Priority rule) 0).
  - intros Hzero Hbound other Hother. unfold stored.
    rewrite Hzero. simpl. specialize (Hbound other Hother). lia.
Qed.

Lemma AddRule_priority_witness :
  ∃ st', AddRule ruleNotes (loaded tieRules quietEnv) = Returns None st'
         ∧ liveRules st' = Some (tieRules ++ [setPriority 4 ruleNotes]).
Proof.
  destruct (AddRule_priority (loaded tieRules quietEnv)
              {| Rules := {| base := 0; len := 3; cap := 3 |};
                 General := defaultGeneral; LastModified := "4242" |} ruleNotes)
    as (st' & Hrun & Hlive & _).
  - vm_compute. reflexivity.
  - vm_compute. repeat split; lia.
  - vm_compute. reflexivity.
  - vm_compute. reflexivity.
  - vm_compute. reflexivity.
  - exists st'. split; [exact Hrun|]. rewrite Hlive. vm_compute. reflexivity.
Defined.

(** C10, as stated, fails where it calls [len(rules) + 1] the lowest
    precedence: next to one rule of priority 10, a rule added with
    priority 0 is stored with priority 2, which ranks before 10, and it is
    the added rule that [MatchWindow] then returns. *)
Lemma AddRule_default_priority_counterexample :
  liveRules (final (AddRule ruleUnranked (loaded [ruleLate] quietEnv)))
  = Some [ruleLate; setPriority 2 ruleUnranked]
  ∧ Priority (setPriority 2 ruleUnranked) < Priority ruleLate
  ∧ ∀ order,
      returned (MatchWindow order (Some safariWindow)
                  (final (AddRule ruleUnranked (loaded [ruleLate] quietEnv))))
      = Some (Some (setPriority 2 ruleUnranked)).
Proof.
  split_and!.
  - vm_compute. reflexivity.
  - vm_compute. reflexivity.
  - intros order. rewrite MatchWindow_run by (vm_compute; reflexivity).
    vm_compute. reflexivity.
Qed.


(** C4 (the code departs from it). [UpdateRule] writes the new rule into
    the backing array that the copy returned by [GetConfig] shares with the
    live configuration, and only then saves: when the save fails, the call
    returns the error, the file and the index are as before, and the live
    configuration already shows the new rule. *)
Theorem UpdateRule_failed_save_changes_live_rules
    (st : State) (c : Config) (index : Z) (rule : Rule) :
  config (ms st) = Some c →
  wfSlice st (Rules c) →
  ruleMutex (ms st) = unlocked →
  0 <= index < Z.of_nat (len (Rules c)) →
  mkdirFails (env st) || writeFails (env st) = true →
  ∃ err st', UpdateRule index rule st = Returns (Some err) st'
    ∧ liveRules st' = Some (<[Z.to_nat index := rule]> (elems st (Rules c)))
    ∧ files st' = files st
    ∧ ruleMap (ms st') = ruleMap (ms st).
Proof.
  intros Hc Hwf Hmu Hidx Hfail.
  unfold UpdateRule. unfold mbind at 1, M_bind at 1.
  rewrite GetConfig_run by (by rewrite Hmu). rewrite Hc.
  destruct (Z.ltb_spec index 0) as [|_]; [lia|].
  destruct (Z.geb_spec index (Z.of_nat (len (Rules c)))) as [|_]; [lia|].
  cbn [orb]. unfold mbind at 1, M_bind at 1, store.
  rewrite SaveConfig_run by done. cbn [env setArray].
  assert (liveRules (setArray (base (Rules c))
                       (<[Z.to_nat index := rule]> (arrayOf st (Rules c))) st)
          = Some (<[Z.to_nat index := rule]> (elems st (Rules c)))) as Hlive.
  { unfold liveRules, elems, arrayOf at 1, setArray. simpl. rewrite Hc. simpl.
    rewrite lookup_insert_eq. simpl. f_equal. apply take_insert_lt. lia. }
  destruct (mkdirFails (env st)); [|destruct (writeFails (env st)); [|done]];
    eexists _, _; (split; [reflexivity|]); done.
Qed.

Lemma UpdateRule_failed_save_changes_live_rules_witness :
  liveRules (withEnv readOnlyEnv (loaded tieRules quietEnv)) = Some tieRules
  ∧ ∃ err st',
      UpdateRule 0 ruleChrome (withEnv readOnlyEnv (loaded tieRules quietEnv))
        = Returns (Some err) st'
      ∧ liveRules st' = Some [ruleChrome; ruleAbc; ruleDownloads].
Proof.
  split; [vm_compute; reflexivity|].
  destruct (UpdateRule_failed_save_changes_live_rules
              (withEnv readOnlyEnv (loaded tieRules quietEnv))
              {| Rules := {| base := 0; len := 3; cap := 3 |};
                 General := defaultGeneral; LastModified := "4242" |} 0 ruleChrome)
    as (err & st' & Hrun & Hlive & _).
  - vm_compute. reflexivity.
  - vm_compute. repeat split; lia.
  - vm_compute. reflexivity.
  - vm_compute. split; [discriminate|reflexivity].
  - vm_compute. reflexivity.
  - exists err, st'. split; [exact Hrun|]. rewrite Hlive. vm_compute. reflexivity.
Defined.

(** [DeleteRule] shifts the tail inside the shared array before it saves:
    after a failed save of the removal of the first of three rules, the
    live configuration shows the second and third rule, and the third
    once more. *)
Example DeleteRule_failed_save_shifts_live_rules :
  liveRules (final (DeleteRule 0 (withEnv readOnlyEnv (loaded tieRules quietEnv))))
  = Some [ruleAbc; ruleDownloads; ruleDownloads]
  ∧ returned (DeleteRule 0 (withEnv readOnlyEnv (loaded tieRules quietEnv)))
    = Some (Some ErrWriteFile).
Proof. split; vm_compute; reflexivity. Qed.

(** On success the three operations update the live configuration and the
    file alike. *)
Example UpdateRule_saved :
  liveRules (final (UpdateRule 1 ruleChrome (loaded tieRules quietEnv)))
  = Some [rulePinyin; ruleChrome; ruleDownloads]
  ∧ files (final (UpdateRule 1 ruleChrome (loaded tieRules quietEnv))) !! sampleConfigPath
    = Some (Json {| docRules := [rulePinyin; ruleChrome; ruleDownloads];
                    docGeneral := defaultGeneral; docLastModified := "4242" |}).
Proof. split; vm_compute; reflexivity. Qed.

Example DeleteRule_saved :
  liveRules (final (DeleteRule 0 (loaded tieRules quietEnv)))
  = Some [ruleAbc; ruleDownloads]
  ∧ files (final (DeleteRule 0 (loaded tieRules quietEnv))) !! sampleConfigPath
    = Some (Json {| docRules := [ruleAbc; ruleDownloads];
                    docGeneral := defaultGeneral; docLastModified := "4242" |}).
Proof. split; vm_compute; reflexivity. Qed.

(** *** Saving and loading *)

Lemma setRuleMutex_unlocked st : ruleMutex (ms st) = unlocked → setRuleMutex unlocked st = st.
Proof. destruct st as [[c path m mu] arrs nxt fs e]. simpl. by intros ->. Qed.

Lemma buildRuleMap_inSync st : indexInSync (buildRuleMap st).
Proof.
  unfold indexInSync, buildRuleMap. destruct st as [[[c|] path m mu] arrs nxt fs e]; done.
Qed.



Lemma elems_of_array st s arr :
  arrays st !! base s = Some arr → elems st s = take (len s) arr.
Proof. unfold elems, arrayOf. by intros ->. Qed.

(** What [LoadConfig] does with a file that decodes. *)
Lemma LoadConfig_json st doc :
  ruleMutex (ms st) = unlocked →
  readFails (env st) = false →
  files st !! configPath (ms st) = Some (Json doc) →
  LoadConfig st =
    Returns None
      (setRuleMutex unlocked
         (buildRuleMap
            (setConfig
               (Some {| Rules := {| base := next st; len := length (docRules doc);
                                    cap := length (docRules doc)
                                           + spare (env st) (length (docRules doc)) |};
                        General := fillDefaults (docGeneral doc);
                        LastModified := docLastModified doc |})
               {| ms := ms st;
                  arrays := <[next st := docRules doc
                                ++ replicate (spare (env st) (length (docRules doc))) zeroRule]>
                              (arrays st);
                  next := S (next st); files := files st; env := env st |}))).
Proof.
  destruct st as [[c0 path m mu] arrs nxt fs e]. simpl. intros -> Hread Hfile.
  unfold LoadConfig. run_monad. rewrite Hfile. simpl. rewrite Hread, Hfile.
  unfold alloc, allocArray, buildRuleMap. simpl. reflexivity.
Qed.

Lemma LoadConfig_json_facts st doc :
  ruleMutex (ms st) = unlocked →
  readFails (env st) = false →
  files st !! configPath (ms st) = Some (Json doc) →
  ∃ st' c,
    LoadConfig st = Returns None st'
    ∧ config (ms st') = Some c
    ∧ elems st' (Rules c) = docRules doc
    ∧ wfSlice st' (Rules c)
    ∧ General c = fillDefaults (docGeneral doc)
    ∧ LastModified c = docLastModified doc
    ∧ ruleMap (ms st') = sortByPriority <$> foldl addRuleToMap ∅ (docRules doc)
    ∧ indexInSync st'
    ∧ files st' = files st
    ∧ ruleMutex (ms st') = unlocked.
Proof.
  intros Hmu Hread Hfile. rewrite (LoadConfig_json st doc) by done.
  eexists _, _. split; [reflexivity|].
  unfold buildRuleMap. cbn [config ms setConfig setRuleMutex setRuleMap].
  assert (∀ s, arrays s = <[next st := docRules doc
                              ++ replicate (spare (env st) (length (docRules doc))) zeroRule]>
                            (arrays st) →
               elems s {| base := next st; len := length (docRules doc);
                          cap := length (docRules doc)
                                 + spare (env st) (length (docRules doc)) |}
               = docRules doc) as Helems.
  { intros s Hs. erewrite elems_of_array by (rewrite Hs; apply lookup_insert_eq).
    apply take_app_length. }
  split_and!; try done.
  - by apply Helems.
  - unfold wfSlice, arrayOf. simpl. rewrite lookup_insert_eq. simpl.
    rewrite length_app, length_replicate. lia.
  - simpl. by rewrite Helems.
Qed.

(** X5. From a file that decodes, [LoadConfig] returns nil with the rules
    of the file as the live rules, in a well-formed slice, the settings of
    the file with the defaults filled in, and the index built from those
    rules; it leaves the files alone and the mutex free.  After it the
    check interval and the switch delay are never 0 and the log level is
    never empty. *)
Theorem LoadConfig_loads_file (st : State) (doc : ConfigDoc) :
  ruleMutex (ms st) = unlocked →
  readFails (env st) = false →
  files st !! configPath (ms st) = Some (Json doc) →
  ∃ st' c,
    LoadConfig st = Returns None st'
    ∧ config (ms st') = Some c
    ∧ elems st' (Rules c) = docRules doc
    ∧ wfSlice st' (Rules c)
    ∧ General c = fillDefaults (docGeneral doc)
    ∧ LastModified c = docLastModified doc
    ∧ CheckInterval (General c) ≠ 0
    ∧ SwitchDelay (General c) ≠ 0
    ∧ LogLevel (General c) ≠ ""%string
    ∧ indexInSync st'
    ∧ files st' = files st
    ∧ ruleMutex (ms st') = unlocked.
Proof.
  intros Hmu Hread Hfile.
  destruct (LoadConfig_json_facts st doc Hmu Hread Hfile)
    as (st' & c & Hrun & Hc & Hrules & Hwf & Hgen & Hmod & _ & Hsync & Hfiles & Hmu').
  exists st', c. rewrite Hgen. split_and!; try done.
  - unfold fillDefaults. simpl. destruct (Z.eqb_spec (CheckInterval (docGeneral doc)) 0); lia.
  - unfold fillDefaults. simpl. destruct (Z.eqb_spec (SwitchDelay (docGeneral doc)) 0); lia.
  - unfold fillDefaults. simpl.
    destruct (String.eqb_spec (LogLevel (docGeneral doc)) ""); done.
Qed.

Lemma LoadConfig_loads_file_witness :
  ∃ st' c,
    LoadConfig (withFile tieRules quietEnv) = Returns None st'
    ∧ config (ms st') = Some c
    ∧ elems st' (Rules c) = tieRules.
Proof.
  destruct (LoadConfig_loads_file (withFile tieRules quietEnv)
              {| docRules := tieRules; docGeneral := defaultGeneral;
                 docLastModified := "4242" |})
    as (st' & c & Hrun & Hc & Hrules & _).
  - reflexivity.
  - reflexivity.
  - vm_compute. reflexivity.
  - exists st', c. split; [exact Hrun|]. split; [exact Hc|exact Hrules].
Defined.



(** *** Editing the rules *)

Lemma append_state st s more :
  ∃ s' st', append s more st = Returns s' st'
    ∧ ms st' = ms st ∧ files st' = files st ∧ env st' = env st.
Proof.
  unfold append. destruct (Nat.leb _ _); eexists _, _; (split; [reflexivity|done]).
Qed.

(** A save that meets no failure. *)
Lemma SaveConfig_success st c :
  ruleMutex (ms st) = unlocked →
  mkdirFails (env st) = false →
  writeFails (env st) = false →
  ∃ st',
    SaveConfig c st = Returns None st'
    ∧ liveRules st' = Some (elems st (Rules c))
    ∧ files st' !! configPath (ms st)
      = Some (Json {| docRules := elems st (Rules c); docGeneral := General c;
                      docLastModified := GoFmt.formatInt (pid (env st)) |})
    ∧ indexInSync st'
    ∧ ruleMutex (ms st') = unlocked.
Proof.
  intros Hmu Hmk Hwr. rewrite (SaveConfig_run _ _ Hmu), Hmk, Hwr.
  eexists. split; [reflexivity|]. unfold indexInSync, liveRules, buildRuleMap. simpl.
  split_and!; try done. apply lookup_insert_eq.
Qed.

(** X7. [UpdateRule] and [DeleteRule] with an index below 0 or not below
    the number of rules return the range error and change nothing. *)
Theorem UpdateRule_DeleteRule_index_out_of_range
    (st : State) (c : Config) (index : Z) (rule : Rule) :
  config (ms st) = Some c →
  writer (ruleMutex (ms st)) = false →
  index < 0 ∨ Z.of_nat (len (Rules c)) <= index →
  UpdateRule index rule st = Returns (Some ErrIndexOutOfRange) st
  ∧ DeleteRule index st = Returns (Some ErrIndexOutOfRange) st.
Proof.
  intros Hc Hmu Hidx. unfold UpdateRule, DeleteRule.
  unfold mbind at 1 3, M_bind at 1 3. rewrite (GetConfig_run _ Hmu), Hc.
  assert ((index <? 0) || (index >=? Z.of_nat (len (Rules c))) = true) as ->; [|done].
  apply orb_true_iff. destruct Hidx; [left; lia|right; lia].
Qed.

Lemma UpdateRule_DeleteRule_index_out_of_range_witness :
  UpdateRule 3 ruleChrome (loaded tieRules quietEnv)
  = Returns (Some ErrIndexOutOfRange) (loaded tieRules quietEnv)
  ∧ DeleteRule 3 (loaded tieRules quietEnv)
    = Returns (Some ErrIndexOutOfRange) (loaded tieRules quietEnv).
Proof.
  apply (UpdateRule_DeleteRule_index_out_of_range (loaded tieRules quietEnv)
           {| Rules := {| base := 0; len := 3; cap := 3 |};
              General := defaultGeneral; LastModified := "4242" |} 3 ruleChrome).
  - vm_compute. reflexivity.
  - vm_compute. reflexivity.
  - right. vm_compute. discriminate.
Defined.

(** X8. Before a configuration is loaded, [AddRule], [UpdateRule] and
    [DeleteRule] return the not-loaded error and change nothing. *)
Theorem edits_need_loaded_config (st : State) (index : Z) (rule : Rule) :
  config (ms st) = None →
  writer (ruleMutex (ms st)) = false →
  AddRule rule st = Returns (Some ErrNotLoaded) st
  ∧ UpdateRule index rule st = Returns (Some ErrNotLoaded) st
  ∧ DeleteRule index st = Returns (Some ErrNotLoaded) st.
Proof.
  intros Hc Hmu. unfold AddRule, UpdateRule, DeleteRule.
  unfold mbind, M_bind. rewrite (GetConfig_run _ Hmu), Hc. done.
Qed.

Lemma edits_need_loaded_config_witness :
  AddRule ruleNotes (withFile tieRules quietEnv)
  = Returns (Some ErrNotLoaded) (withFile tieRules quietEnv).
Proof.
  apply (edits_need_loaded_config (withFile tieRules quietEnv) 0 ruleNotes);
    reflexivity.
Defined.

(** X9. [UpdateRule] with an index in range, when the save succeeds,
    returns nil; the live rules and the rules in the file are the old
    ones with the rule at the index replaced, and the index is rebuilt
    from them. *)
Theorem UpdateRule_replaces_rule (st : State) (c : Config) (index : Z) (rule : Rule) :
  config (ms st) = Some c →
  wfSlice st (Rules c) →
  ruleMutex (ms st) = unlocked →
  0 <= index < Z.of_nat (len (Rules c)) →
  mkdirFails (env st) = false →
  writeFails (env st) = false →
  ∃ st',
    UpdateRule index rule st = Returns None st'
    ∧ liveRules st' = Some (<[Z.to_nat index := rule]> (elems st (Rules c)))
    ∧ (∃ doc, files st' !! configPath (ms st) = Some (Json doc)
              ∧ docRules doc = <[Z.to_nat index := rule]> (elems st (Rules c)))
    ∧ indexInSync st'.
Proof.
  intros Hc Hwf Hmu Hidx Hmk Hwr.
  unfold UpdateRule. unfold mbind at 1, M_bind at 1.
  rewrite GetConfig_run by (by rewrite Hmu). rewrite Hc.
  destruct (Z.ltb_spec index 0) as [|_]; [lia|].
  destruct (Z.geb_spec index (Z.of_nat (len (Rules c)))) as [|_]; [lia|].
  cbn [orb]. unfold mbind at 1, M_bind at 1, store.
  set (st1 := setArray _ _ st).
  assert (elems st1 (Rules c) = <[Z.to_nat index := rule]> (elems st (Rules c))) as Hnew.
  { unfold st1. erewrite elems_of_array by (simpl; apply lookup_insert_eq).
    unfold elems. apply take_insert_lt. lia. }
  destruct (SaveConfig_success st1 c Hmu Hmk Hwr) as (st' & Hsave & Hlive & Hfile & Hsync & _).
  rewrite Hsave. exists st'. rewrite Hnew in Hlive, Hfile. split_and!; try done.
  eexists. split; [exact Hfile|done].
Qed.

Lemma UpdateRule_replaces_rule_witness :
  ∃ st', UpdateRule 1 ruleChrome (loaded tieRules quietEnv) = Returns None st'
         ∧ liveRules st' = Some [rulePinyin; ruleChrome; ruleDownloads].
Proof.
  destruct (UpdateRule_replaces_rule (loaded tieRules quietEnv)
              {| Rules := {| base := 0; len := 3; cap := 3 |};
                 General := defaultGeneral; LastModified := "4242" |} 1 ruleChrome)
    as (st' & Hrun & Hlive & _).
  - vm_compute. reflexivity.
  - vm_compute. repeat split; lia.
  - vm_compute. reflexivity.
  - vm_compute. split; [discriminate|reflexivity].
  - reflexivity.
  - reflexivity.
  - exists st'. split; [exact Hrun|]. rewrite Hlive. vm_compute. reflexivity.
Defined.

(** X10. [DeleteRule] with an index in range, when the save succeeds,
    returns nil; the live rules and the rules in the file are the old
    ones without the rule at the index, in the same order, and the index
    is rebuilt from them. *)
Theorem DeleteRule_removes_rule (st : State) (c : Config) (index : Z) :
  config (ms st) = Some c →
  wfSlice st (Rules c) →
  ruleMutex (ms st) = unlocked →
  0 <= index < Z.of_nat (len (Rules c)) →
  mkdirFails (env st) = false →
  writeFails (env st) = false →
  ∃ st',
    DeleteRule index st = Returns None st'
    ∧ liveRules st' = Some (delete (Z.to_nat index) (elems st (Rules c)))
    ∧ (∃ doc, files st' !! configPath (ms st) = Some (Json doc)
              ∧ docRules doc = delete (Z.to_nat index) (elems st (Rules c)))
    ∧ indexInSync st'.
Proof.
  intros Hc Hwf Hmu Hidx Hmk Hwr.
  unfold DeleteRule. unfold mbind at 1, M_bind at 1.
  rewrite GetConfig_run by (by rewrite Hmu). rewrite Hc.
  destruct (Z.ltb_spec index 0) as [|_]; [lia|].
  destruct (Z.geb_spec index (Z.of_nat (len (Rules c)))) as [|_]; [lia|].
  cbn [orb]. unfold mbind at 1, M_bind at 1, get.
  set (front := {| base := base (Rules c); len := Z.to_nat index; cap := cap (Rules c) |}).
  set (back := drop (S (Z.to_nat index)) (elems st (Rules c))).
  assert (wfSlice st front) as Hfront.
  { destruct Hwf as (Hlen & Harr & Hbase). unfold wfSlice, front, arrayOf in *. simpl.
    split_and!; [lia|done|done]. }
  destruct (append_run st front back Hfront)
    as (s' & st1 & Happ & Helems & Hms & Hfiles & Henv & _).
  unfold mbind at 1, M_bind at 1. rewrite Happ.
  assert (elems st1 s' = delete (Z.to_nat index) (elems st (Rules c))) as Hnew.
  { rewrite Helems, delete_take_drop. f_equal.
    unfold elems, front. simpl. rewrite take_take. f_equal. lia. }
  destruct (SaveConfig_success st1 (setRules s' c))
    as (st' & Hsave & Hlive & Hfile & Hsync & _);
    [by rewrite Hms|by rewrite Henv|by rewrite Henv|].
  rewrite Hsave. exists st'. simpl in Hlive, Hfile. rewrite Hnew in Hlive, Hfile.
  rewrite Hms in Hfile. split_and!; try done.
  eexists. split; [exact Hfile|done].
Qed.

Lemma DeleteRule_removes_rule_witness :
  ∃ st', DeleteRule 0 (loaded tieRules quietEnv) = Returns None st'
         ∧ liveRules st' = Some [ruleAbc; ruleDownloads].
Proof.
  destruct (DeleteRule_removes_rule (loaded tieRules quietEnv)
              {| Rules := {| base := 0; len := 3; cap := 3 |};
                 General := defaultGeneral; LastModified := "4242" |} 0)
    as (st' & Hrun & Hlive & _).
  - vm_compute. reflexivity.
  - vm_compute. repeat split; lia.
  - vm_compute. reflexivity.
  - vm_compute. split; [discriminate|reflexivity].
  - reflexivity.
  - reflexivity.
  - exists st'. split; [exact Hrun|]. rewrite Hlive. vm_compute. reflexivity.
Defined.


(** *** The mutex *)

Lemma SaveConfig_mutex st c err st' :
  SaveConfig c st = Returns err st' → ruleMutex (ms st') = unlocked.
Proof.
  intros Hsave. pose proof (SaveConfig_returns _ _ _ _ Hsave) as Hmu.
  rewrite (SaveConfig_run _ _ Hmu) in Hsave.
  destruct (mkdirFails (env st)); [by injection Hsave as <- <-|].
  destruct (writeFails (env st)); [by injection Hsave as <- <-|].
  injection Hsave as <- <-. unfold buildRuleMap. simpl. done.
Qed.

Lemma LoadConfig_mutex st err st' :
  ruleMutex (ms st) = unlocked →
  LoadConfig st = Returns err st' → ruleMutex (ms st') = unlocked.
Proof.
  destruct st as [[c0 path m mu] arrs nxt fs e]. simpl. intros ->.
  unfold LoadConfig. run_monad.
  destruct (fs !! path) as [[doc|bytes]|] eqn:Hfile; simpl.
  - destruct (readFails e); simpl; [by intros [= <- <-]|].
    rewrite Hfile. unfold alloc, allocArray, buildRuleMap. simpl. by intros [= <- <-].
  - destruct (readFails e); simpl; [by intros [= <- <-]|].
    rewrite Hfile. by intros [= <- <-].
  - unfold createDefaultConfig, SaveConfig, allocArray. run_monad. done.
Qed.

(** X12. No call keeps the mutex: started with the mutex free, every
    operation of the service that returns, with nil or with an error,
    leaves the mutex free. *)
Theorem operations_release_mutex (st : State) :
  ruleMutex (ms st) = unlocked →
  (∀ c err st', SaveConfig c st = Returns err st' → ruleMutex (ms st') = unlocked)
  ∧ (∀ err st', LoadConfig st = Returns err st' → ruleMutex (ms st') = unlocked)
  ∧ (∀ rule err st', AddRule rule st = Returns err st' → ruleMutex (ms st') = unlocked)
  ∧ (∀ index rule err st',
       UpdateRule index rule st = Returns err st' → ruleMutex (ms st') = unlocked)
  ∧ (∀ index err st', DeleteRule index st = Returns err st' → ruleMutex (ms st') = unlocked)
  ∧ (∀ r st', GetConfig st = Returns r st' → ruleMutex (ms st') = unlocked)
  ∧ (∀ appName r st', GetAppRules appName st = Returns r st' → ruleMutex (ms st') = unlocked)
  ∧ (∀ order window r st',
       MatchWindow order window st = Returns r st' → ruleMutex (ms st') = unlocked).
Proof.
  intros Hmu.
  assert (writer (ruleMutex (ms st)) = false) as Hw by (by rewrite Hmu).
  split_and!.
  - intros c err st'. apply SaveConfig_mutex.
  - intros err st'. by apply LoadConfig_mutex.
  - intros rule err st'. unfold AddRule. unfold mbind at 1, M_bind at 1.
    rewrite (GetConfig_run _ Hw). destruct (config (ms st)) as [c|]; [|by intros [= <- <-]].
    unfold mbind at 1, M_bind at 1.
    destruct (append_state st (Rules c)
                [if Priority rule =? 0
                 then setPriority (Z.of_nat (len (Rules c)) + 1) rule else rule])
      as (s' & st1 & -> & _). apply SaveConfig_mutex.
  - intros index rule err st'. unfold UpdateRule. unfold mbind at 1, M_bind at 1.
    rewrite (GetConfig_run _ Hw). destruct (config (ms st)) as [c|]; [|by intros [= <- <-]].
    destruct ((index <? 0) || (index >=? Z.of_nat (len (Rules c))));
      [by intros [= <- <-]|].
    unfold mbind at 1, M_bind at 1, store. apply SaveConfig_mutex.
  - intros index err st'. unfold DeleteRule. unfold mbind at 1, M_bind at 1.
    rewrite (GetConfig_run _ Hw). destruct (config (ms st)) as [c|]; [|by intros [= <- <-]].
    destruct ((index <? 0) || (index >=? Z.of_nat (len (Rules c))));
      [by intros [= <- <-]|].
    unfold mbind at 1, M_bind at 1, get. unfold mbind at 1, M_bind at 1.
    match goal with
    | |- context [append ?s ?more st] =>
        destruct (append_state st s more) as (s' & st1 & -> & _)
    end.
    apply SaveConfig_mutex.
  - intros r st'. rewrite (GetConfig_run _ Hw). by intros [= <- <-].
  - intros appName r st'. destruct st as [[c0 path m [w rd]] arrs nxt fs e].
    simpl in *. injection Hmu as -> ->. unfold GetAppRules. run_monad. by intros [= <- <-].
  - intros order window r st'. rewrite (MatchWindow_run _ _ _ Hw). by intros [= <- <-].
Qed.

Lemma operations_release_mutex_witness :
  ruleMutex (ms (final (UpdateRule 0 ruleChrome
                          (withEnv readOnlyEnv (loaded tieRules quietEnv)))))
  = unlocked.
Proof.
  refine (proj1 (proj2 (proj2 (proj2
            (operations_release_mutex (withEnv readOnlyEnv (loaded tieRules quietEnv)) _))))
          0 ruleChrome (Some ErrWriteFile) _ _).
  - vm_compute. reflexivity.
  - vm_compute. reflexivity.
Defined.

(** *** What the index holds and what matching returns *)







Lemma appNameMatches_refl name : appNameMatches name name = true.
Proof. unfold appNameMatches. by rewrite String.eqb_refl. Qed.





(** X15. [MatchWindow] returns nil for an observation exactly when no key
    of the index that matches the observed application name holds a rule
    whose window pattern matches: as long as such a key exists, some rule
    is returned, whatever the order in which the map is visited. *)
Theorem MatchWindow_none_iff
    (st : State) (order : list (string * list Rule)) (window : Window.WindowInfo) :
  writer (ruleMutex (ms st)) = false →
  iterationOrder st order →
  MatchWindow order (Some window) st = Returns None st
  ↔ ∀ key rules, ruleMap (ms st) !! key = Some rules →
                 appNameMatches (Window.AppName window) key = true →
                 firstWindowMatch window rules = None.
Proof.
  intros Hmu Horder. unfold iterationOrder in Horder.
  rewrite (MatchWindow_run _ _ _ Hmu). split.
  - intros [= Hres] key rules Hkey Happ.
    destruct (exactMatch (ruleMap (ms st)) window); [done|].
    assert ((key, rules) ∈ order) as Hin.
    { rewrite Horder. by apply elem_of_map_to_list. }
    pose proof (fuzzyMatch_None _ _ _ Hres Hin) as Hans.
    unfold fuzzyAnswer in Hans. simpl in Hans. by rewrite Happ in Hans.
  - intros Hnone. f_equal.
    assert (exactMatch (ruleMap (ms st)) window = None) as ->.
    { unfold exactMatch.
      destruct (ruleMap (ms st) !! Window.AppName window) as [rules|] eqn:Hexact; [|done].
      apply (Hnone _ _ Hexact), appNameMatches_refl. }
    destruct (fuzzyMatch order window) as [rule|] eqn:Hfuzzy; [|done].
    apply fuzzyMatch_Some in Hfuzzy as ([key rs] & Hin & Hans).
    unfold fuzzyAnswer in Hans. simpl in Hans.
    destruct (appNameMatches _ key) eqn:Happ; [|done].
    rewrite Horder in Hin. apply elem_of_map_to_list in Hin.
    by rewrite (Hnone _ _ Hin Happ) in Hans.
Qed.

Lemma MatchWindow_none_iff_witness :
  MatchWindow chromeFirst (Some safariWindow) (loaded [ruleChrome; ruleGoogle] quietEnv)
  = Returns None (loaded [ruleChrome; ruleGoogle] quietEnv).
Proof.
  apply (MatchWindow_none_iff (loaded [ruleChrome; ruleGoogle] quietEnv)
           chromeFirst safariWindow).
  - vm_compute. reflexivity.
  - unfold iterationOrder. vm_compute. apply perm_swap.
  - intros key rules Hkey Happ.
    destruct (decide (key = "Chrome"%string)) as [->|Hc];
      [vm_compute in Happ; discriminate|].
    destruct (decide (key = "Google"%string)) as [->|Hg];
      [vm_compute in Happ; discriminate|].
    exfalso. revert Hkey.
    assert (ruleMap (ms (loaded [ruleChrome; ruleGoogle] quietEnv))
            = <["Chrome"%string := [ruleChrome]]> (<["Google"%string := [ruleGoogle]]> ∅))
      as -> by (vm_compute; reflexivity).
    rewrite !lookup_insert_ne by done. by rewrite lookup_empty.
Defined.

(** *** Case and white space *)

Lemma isSpace_lowerByte c : GoStrings.isSpace (GoStrings.lowerByte c) = GoStrings.isSpace c.
Proof. destruct c as [[] [] [] [] [] [] [] []]; reflexivity. Qed.



Lemma ToLower_empty s : GoStrings.ToLower s = ""%string ↔ s = ""%string.
Proof. by destruct s. Qed.

Lemma ToLower_trimLeft s :
  GoStrings.ToLower (GoStrings.trimLeft s) = GoStrings.trimLeft (GoStrings.ToLower s).
Proof.
  induction s as [|c s IH]; simpl; [done|]. rewrite isSpace_lowerByte.
  by destruct (GoStrings.isSpace c).
Qed.

Lemma ToLower_trimRight s :
  GoStrings.ToLower (GoStrings.trimRight s) = GoStrings.trimRight (GoStrings.ToLower s).
Proof.
  induction s as [|c s IH]; simpl; [done|]. rewrite <- IH, isSpace_lowerByte.
  destruct (GoStrings.trimRight s); simpl; [|done]. by destruct (GoStrings.isSpace c).
Qed.

Lemma ToLower_TrimSpace s :
  GoStrings.ToLower (GoStrings.TrimSpace s) = GoStrings.TrimSpace (GoStrings.ToLower s).
Proof. unfold GoStrings.TrimSpace. by rewrite ToLower_trimRight, ToLower_trimLeft. Qed.

(** A string is clear on the left when it does not start with white
    space. *)
Lemma trimLeft_fixed s :
  GoStrings.trimLeft (GoStrings.trimLeft s) = GoStrings.trimLeft s.
Proof.
  induction s as [|c s IH]; simpl; [done|].
  destruct (GoStrings.isSpace c) eqn:Hc; [done|]. simpl. by rewrite Hc.
Qed.

Lemma trimRight_cons c s :
  GoStrings.trimRight (String c s)
  = match GoStrings.trimRight s with
    | EmptyString => if GoStrings.isSpace c then EmptyString else String c EmptyString
    | t => String c t
    end.
Proof. reflexivity. Qed.

Lemma trimRight_fixed s :
  GoStrings.trimRight (GoStrings.trimRight s) = GoStrings.trimRight s.
Proof.
  induction s as [|c s IH]; simpl; [done|].
  destruct (GoStrings.trimRight s) as [|d t] eqn:Ht.
  - destruct (GoStrings.isSpace c) eqn:Hc; simpl; [done|]. by rewrite Hc.
  - rewrite trimRight_cons, IH. done.
Qed.

Lemma trimLeft_trimRight s :
  GoStrings.trimLeft s = s →
  GoStrings.trimLeft (GoStrings.trimRight s) = GoStrings.trimRight s.
Proof.
  destruct s as [|c s]; simpl; [done|].
  destruct (GoStrings.isSpace c) eqn:Hc.
  - intros Heq. apply (f_equal String.length) in Heq. simpl in Heq.
    assert (∀ t, (String.length (GoStrings.trimLeft t) ≤ String.length t)%nat) as Hle.
    { clear. induction t as [|a t IH]; simpl; [done|].
      destruct (GoStrings.isSpace a); simpl; lia. }
    specialize (Hle s). lia.
  - intros _. destruct (GoStrings.trimRight s); simpl; by rewrite Hc.
Qed.

Lemma TrimSpace_idemp s :
  GoStrings.TrimSpace (GoStrings.TrimSpace s) = GoStrings.TrimSpace s.
Proof.
  unfold GoStrings.TrimSpace.
  rewrite (trimLeft_trimRight (GoStrings.trimLeft s)) by apply trimLeft_fixed.
  apply trimRight_fixed.
Qed.


Lemma TrimSpace_empty_lower s :
  GoStrings.TrimSpace (GoStrings.ToLower s) = ""%string ↔ GoStrings.TrimSpace s = ""%string.
Proof. by rewrite <- ToLower_TrimSpace, ToLower_empty. Qed.

Lemma Contains_empty s : GoStrings.Contains s "" = true.
Proof. destruct s; reflexivity. Qed.


(** *** The star of a window pattern *)

Lemma HasPrefix_empty s : GoStrings.HasPrefix s "" = true.
Proof. by destruct s. Qed.

Lemma replace_star_cons c s :
  GoStrings.replaceFrom "*" ".*" (String c s) 0
  = if Ascii.eqb "*" c
    then String "." (String "*" (GoStrings.replaceFrom "*" ".*" s 0))
    else String c (GoStrings.replaceFrom "*" ".*" s 0).
Proof.
  cbn [GoStrings.replaceFrom GoStrings.HasPrefix]. rewrite HasPrefix_empty.
  by destruct (Ascii.eqb "*" c).
Qed.

Lemma star_image_head s :
  GoStrings.HasPrefix (GoStrings.replaceFrom "*" ".*" s 0) "*" = false.
Proof.
  destruct s as [|c s]; [done|]. rewrite replace_star_cons.
  destruct (Ascii.eqb "*" c) eqn:Hc; [done|].
  cbn [GoStrings.HasPrefix]. by rewrite Hc.
Qed.

Lemma ReplaceAll_stars s :
  GoStrings.ReplaceAll (GoStrings.ReplaceAll s "*" ".*") ".*" "" = withoutStars s.
Proof.
  change (GoStrings.replaceFrom ".*" "" (GoStrings.replaceFrom "*" ".*" s 0) 0
          = withoutStars s).
  induction s as [|c s IH]; [done|].
  rewrite replace_star_cons. cbn [withoutStars].
  rewrite (Ascii.eqb_sym c). destruct (Ascii.eqb "*" c) eqn:Hc.
  - cbn [GoStrings.replaceFrom GoStrings.HasPrefix]. rewrite HasPrefix_empty.
    exact IH.
  - pose proof (star_image_head s) as Hhead.
    cbn [GoStrings.replaceFrom GoStrings.HasPrefix].
    destruct (Ascii.eqb "." c).
    + destruct (GoStrings.replaceFrom "*" ".*" s 0) as [|d t] eqn:Himage.
      * rewrite <- IH. done.
      * cbn [GoStrings.HasPrefix] in Hhead |- *. by rewrite Hhead, <- IH.
    + by rewrite <- IH.
Qed.

Lemma withoutStars_fixed s : GoStrings.Contains s "*" = false → withoutStars s = s.
Proof.
  induction s as [|c s IH]; [done|]. cbn [GoStrings.Contains GoStrings.HasPrefix withoutStars].
  rewrite (Ascii.eqb_sym c). destruct (Ascii.eqb "*" c).
  - by rewrite HasPrefix_empty.
  - simpl. intros Hs. by rewrite IH.
Qed.

(** X26. The star of a window pattern is no wildcard: [windowNameMatches]
    deletes the stars and then asks whether the observed title contains
    what is left as one piece, both sides trimmed and in lower case.  A
    pattern of stars only matches every title. *)
Theorem windowNameMatches_deletes_stars (currentWindowName ruleWindowName : string) :
  windowNameMatches currentWindowName ruleWindowName
  = GoStrings.Contains
      (GoStrings.ToLower (GoStrings.TrimSpace currentWindowName))
      (withoutStars (GoStrings.ToLower (GoStrings.TrimSpace ruleWindowName))).
Proof.
  unfold windowNameMatches.
  destruct (String.eqb_spec ruleWindowName "") as [->|_].
  { by rewrite Contains_empty. }
  destruct (GoStrings.Contains (GoStrings.ToLower (GoStrings.TrimSpace ruleWindowName)) "*")
    eqn:Hstar.
  - by rewrite ReplaceAll_stars.
  - by rewrite withoutStars_fixed.
Qed.

End MatcherSpec.

(** ** The action log *)

Module LoggerSpec.
Import GoSync Logger.

(** *** Names of the generations *)

Lemma append_inj_l (s a b : string) : String.append s a = String.append s b → a = b.
Proof. induction s as [|c s IH]; simpl; [done|]. intros [=]. auto. Qed.

Lemma length_append (a b : string) :
  String.length (String.append a b) = (String.length a + String.length b)%nat.
Proof. induction a as [|c a IH]; simpl; [done|]. by rewrite IH. Qed.

Lemma append_inj_r (a b e : string) : String.append a e = String.append b e → a = b.
Proof.
  revert b. induction a as [|c a IH]; intros [|d b]; simpl; intros Heq; [done| | |].
  - apply (f_equal String.length) in Heq.
    rewrite !length_append in Heq. simpl in Heq. lia.
  - apply (f_equal String.length) in Heq.
    rewrite !length_append in Heq. simpl in Heq. lia.
  - injection Heq as -> Heq. f_equal. by apply IH.
Qed.

Lemma formatInt_inj i j : GoFmt.formatInt i = GoFmt.formatInt j → i = j.
Proof.
  unfold GoFmt.formatInt. intros Heq. apply DecimalZ.to_int_inj.
  apply (f_equal NilEmpty.int_of_string) in Heq.
  rewrite !NilEmpty.isi in Heq. congruence.
Qed.

Lemma generationName_inj path i j :
  generationName path i = generationName path j → i = j.
Proof.
  unfold generationName. intros Heq.
  apply append_inj_l, append_inj_l, append_inj_r in Heq. by apply formatInt_inj.
Qed.

Lemma Ext_length path : (String.length (GoPath.Ext path) ≤ String.length path)%nat.
Proof.
  induction path as [|c path IH]; simpl; [done|].
  destruct (GoPath.stops path); [lia|]. destruct (Ascii.eqb c "."); simpl; lia.
Qed.

Lemma substring_length n s :
  (n ≤ String.length s)%nat → String.length (String.substring 0 n s) = n.
Proof.
  revert s. induction n as [|n IH]; intros [|c s]; simpl; try done; try lia.
  intros Hn. rewrite IH; lia.
Qed.

Lemma generationName_not_live path i : generationName path i ≠ path.
Proof.
  unfold generationName, baseNameWithoutExt. intros Heq.
  apply (f_equal String.length) in Heq.
  rewrite !length_append, substring_length in Heq by lia.
  pose proof (Ext_length path). simpl in Heq. lia.
Qed.

(** *** Rotation *)

Lemma Rename_source oldpath newpath (fs : gmap string string) :
  oldpath ≠ newpath → Rename oldpath newpath fs !! oldpath = None.
Proof.
  intros Hne. unfold Rename. destruct (fs !! oldpath) eqn:Hold; [|done].
  rewrite lookup_insert_ne by done. apply lookup_delete_eq.
Qed.

Lemma Rename_target oldpath newpath (fs : gmap string string) :
  oldpath ≠ newpath → fs !! newpath = None →
  Rename oldpath newpath fs !! newpath = fs !! oldpath.
Proof.
  intros Hne Hnew. unfold Rename. destruct (fs !! oldpath) eqn:Hold; [|done].
  apply lookup_insert_eq.
Qed.

Lemma Rename_other oldpath newpath (fs : gmap string string) p :
  p ≠ oldpath → p ≠ newpath → Rename oldpath newpath fs !! p = fs !! p.
Proof.
  intros Ho Hn. unfold Rename. destruct (fs !! oldpath) eqn:Hold; [|done].
  rewrite lookup_insert_ne by done. by rewrite lookup_delete_ne.
Qed.

(** The turns of the loop below [maxLogFiles - 1] move every generation
    one place up. *)
Lemma shiftDown_renames path N k (fs : gmap string string) :
  Z.of_nat k < N - 1 →
  fs !! generationName path (Z.of_nat k + 1) = None →
  (∀ i, 1 <= i <= Z.of_nat k →
        shiftDown path N k fs !! generationName path (i + 1)
        = fs !! generationName path i)
  ∧ shiftDown path N k fs !! generationName path 1 = None
  ∧ (∀ p, (∀ i, 1 <= i <= Z.of_nat k + 1 → p ≠ generationName path i) →
          shiftDown path N k fs !! p = fs !! p).
Proof.
  revert fs. induction k as [|k IH]; intros fs Hk Hfree.
  { simpl in *. split_and!; [intros; lia|done|done]. }
  cbn [shiftDown]. unfold shiftOne.
  destruct (Z.eqb_spec (Z.of_nat (S k)) (N - 1)) as [|_]; [lia|].
  set (fs1 := Rename _ _ fs).
  assert (generationName path (Z.of_nat (S k)) ≠ generationName path (Z.of_nat (S k) + 1))
    as Hne by (intros ?%generationName_inj; lia).
  destruct (IH fs1) as (Hup & Hone & Hrest); [lia| |].
  { replace (Z.of_nat k + 1) with (Z.of_nat (S k)) by lia. by apply Rename_source. }
  split_and!.
  - intros i Hi. destruct (decide (i = Z.of_nat (S k))) as [->|].
    + rewrite Hrest by (intros j Hj ?%generationName_inj; lia).
      by apply Rename_target.
    + rewrite Hup by lia. apply Rename_other; intros ?%generationName_inj; lia.
  - done.
  - intros p Hp. rewrite Hrest by (intros; apply Hp; lia).
    apply Rename_other; apply Hp; lia.
Qed.

(** The files after the removal of the oldest generation and the loop. *)
Lemma shifted_files path N (fs : gmap string string) :
  1 <= N →
  let fs' := shiftDown path N (Z.to_nat (N - 1)) (Remove (generationName path N) fs) in
  fs' !! generationName path 1 = None
  ∧ (∀ k, 2 <= k <= N - 1 →
          fs' !! generationName path k = fs !! generationName path (k - 1))
  ∧ (2 <= N → fs' !! generationName path N = None)
  ∧ (∀ p, (∀ k, 1 <= k <= N → p ≠ generationName path k) → fs' !! p = fs !! p).
Proof.
  intros HN. unfold Remove.
  destruct (Z.to_nat (N - 1)) as [|k] eqn:Hk.
  - assert (N = 1) as -> by lia. simpl. split_and!.
    + apply lookup_delete_eq.
    + intros; lia.
    + lia.
    + intros p Hp. apply lookup_delete_ne. intros <-. by apply (Hp 1).
  - cbn [shiftDown]. unfold shiftOne.
    assert (Z.of_nat (S k) = N - 1) as HSk by lia. rewrite HSk, Z.eqb_refl.
    unfold Remove. set (fs1 := delete _ (delete _ fs)).
    destruct (shiftDown_renames path N k fs1) as (Hup & Hone & Hrest); [lia| |].
    { replace (Z.of_nat k + 1) with (N - 1) by lia. apply lookup_delete_eq. }
    assert (∀ i, i ≠ N → i ≠ N - 1 →
                 fs1 !! generationName path i = fs !! generationName path i) as Hfs1.
    { intros i H1 H2. unfold fs1.
      rewrite !lookup_delete_ne by (intros ?%generationName_inj; lia). done. }
    split_and!.
    + done.
    + intros i Hi. replace i with (i - 1 + 1) at 1 by lia.
      rewrite Hup by lia. apply Hfs1; lia.
    + intros _. rewrite Hrest by (intros j Hj ?%generationName_inj; lia).
      unfold fs1. rewrite lookup_delete_ne by (intros ?%generationName_inj; lia).
      apply lookup_delete_eq.
    + intros p Hp. rewrite Hrest by (intros; apply Hp; lia).
      unfold fs1. rewrite !lookup_delete_ne by (intros <-; by eapply Hp; [|done]; lia).
      done.
Qed.

(** What a rotation leaves: an empty live file, the former live file as
    generation 1, the former generations 1 to [maxLogFiles - 2] one place
    up, no generation [maxLogFiles], and every other file untouched. *)
Lemma rotateFiles_lookup path N (fs : gmap string string) live :
  1 <= N → fs !! path = Some live →
  rotateFiles path N fs !! path = Some ""%string
  ∧ rotateFiles path N fs !! generationName path 1 = Some live
  ∧ (∀ k, 2 <= k <= N - 1 →
          rotateFiles path N fs !! generationName path k
          = fs !! generationName path (k - 1))
  ∧ (2 <= N → rotateFiles path N fs !! generationName path N = None)
  ∧ (∀ p, p ≠ path → (∀ k, 1 <= k <= N → p ≠ generationName path k) →
          rotateFiles path N fs !! p = fs !! p).
Proof.
  intros HN Hlive. unfold rotateFiles.
  destruct (shifted_files path N fs HN) as (Hone & Hup & Hlast & Hrest).
  set (fs2 := shiftDown _ _ _ _) in *.
  assert (fs2 !! path = Some live) as Hlive2.
  { rewrite Hrest; [done|]. intros k _ Heq. by apply (generationName_not_live path k). }
  pose proof (generationName_not_live path 1) as Hne1.
  unfold Rename. rewrite Hlive2. unfold OpenAppend.
  rewrite lookup_insert_ne, lookup_delete_eq by done.
  split_and!.
  - apply lookup_insert_eq.
  - rewrite lookup_insert_ne by done. apply lookup_insert_eq.
  - intros k Hk.
    rewrite lookup_insert_ne by (intros Heq; by apply (generationName_not_live path k)).
    rewrite lookup_insert_ne by (intros ?%generationName_inj; lia).
    rewrite lookup_delete_ne by (intros Heq; by apply (generationName_not_live path k)).
    by apply Hup.
  - intros HN2.
    rewrite lookup_insert_ne by (intros Heq; by apply (generationName_not_live path N)).
    rewrite lookup_insert_ne by (intros ?%generationName_inj; lia).
    rewrite lookup_delete_ne by (intros Heq; by apply (generationName_not_live path N)).
    by apply Hlast.
  - intros p Hp Hgen.
    rewrite lookup_insert_ne by done.
    rewrite lookup_insert_ne by (intros <-; by apply (Hgen 1); [lia|]).
    rewrite lookup_delete_ne by done. by apply Hrest.
Qed.

(** *** Flushing *)

Lemma append_cons (x : ascii) (a b : string) :
  String.append (String x a) b = String x (String.append a b).
Proof. reflexivity. Qed.

Lemma append_assoc (a b c : string) :
  String.append (String.append a b) c = String.append a (String.append b c).
Proof. induction a as [|x a IH]; [done|]. by rewrite !append_cons, IH. Qed.

Lemma append_empty_r (a : string) : String.append a "" = a.
Proof. induction a as [|x a IH]; [done|]. by rewrite append_cons, IH. Qed.

(** The loop of [flush] appends the lines of the buffer to the live
    file. *)
Lemma writeEntries_files st buffer content :
  logFile (ls st) = Some Opened →
  files st !! logPath (ls st) = Some content →
  foldl writeEntry st buffer =
    setFiles (<[logPath (ls st) :=
                  String.append content (encodeEntries (jsonMarshal st) buffer)]> (files st)) st.
Proof.
  revert st content. induction buffer as [|entry buffer IH]; intros st content Hopen Hfile.
  { simpl. rewrite append_empty_r, insert_id by done. by destruct st. }
  cbn [foldl encodeEntries]. unfold writeEntry at 2.
  destruct (jsonMarshal st entry) as [jsonData|]; [|by apply IH].
  rewrite Hopen. unfold WriteString. rewrite Hfile. cbn [default].
  erewrite IH; [|done|apply lookup_insert_eq].
  unfold setFiles. simpl. by rewrite insert_insert_eq, append_assoc.
Qed.

(** [flush] on a buffer that is not empty, when the live file has reached
    the size limit: it rotates, writes the buffer to the new live file and
    empties the buffer. *)
Lemma flush_rotation st live :
  bufferMutex (ls st) = unlocked →
  logBuffer (ls st) ≠ [] →
  logFile (ls st) = Some Opened →
  files st !! logPath (ls st) = Some live →
  maxLogSize (ls st) <= Z.of_nat (String.length live) →
  1 <= maxLogFiles (ls st) →
  flush st =
    Returns tt
      (setBuffer []
         (setFiles
            (<[logPath (ls st) := encodeEntries (jsonMarshal st) (logBuffer (ls st))]>
               (rotateFiles (logPath (ls st)) (maxLogFiles (ls st)) (files st)))
            st)).
Proof.
  destruct st as [[file path maxSize maxFiles bufSize buffer mu enabled] fs marshal].
  simpl. intros -> Hbuf -> Hlive Hsize Hfiles.
  destruct buffer as [|entry buffer]; [done|].
  destruct (rotateFiles_lookup path maxFiles fs live Hfiles Hlive) as (Hnew & _).
  unfold flush, rotateLogIfNeeded.
  unfold mbind, M_bind, mret, M_ret, lockBuf, unlockBuf, Lock, Unlock, get, modify.
  cbn -[foldl writeEntry rotateFiles encodeEntries]. rewrite Hlive.
  destruct (Z.ltb_spec (Z.of_nat (String.length live)) maxSize) as [|_]; [lia|].
  cbn -[foldl writeEntry rotateFiles encodeEntries].
  match goal with
  | |- context [foldl writeEntry ?s ?b] =>
      rewrite (writeEntries_files s b "" eq_refl Hnew)
  end.
  reflexivity.
Qed.






(** *** Recording *)

(** Below the capacity, [log] appends the entry and returns. *)
Lemma log_below_capacity st now level message appName input action errorMsg :
  bufferMutex (ls st) = unlocked →
  Z.of_nat (length (logBuffer (ls st))) + 1 < bufferSize (ls st) →
  log now level message appName input action errorMsg st =
    Returns tt
      (setBuffer (logBuffer (ls st)
                  ++ [entryOf now level message appName input action errorMsg]) st).
Proof.
  destruct st as [[file path maxSize maxFiles bufSize buffer mu enabled] fs marshal].
  simpl. intros -> Hlen. unfold log. run_log.
  rewrite length_app. simpl.
  destruct (Z.geb_spec (Z.of_nat (length buffer + 1)) bufSize) as [|_]; [lia|].
  reflexivity.
Qed.

(** C3 (the code departs from it). A [log] call that makes the buffer
    reach the capacity calls [flush] while it still holds the buffer
    mutex; [flush] waits for that mutex, so the call never returns: no
    flush takes place, the buffer keeps all its entries and nothing is
    written. *)
Theorem log_at_capacity_blocks
    (st : LogState) (now : Z) (level : LogLevel)
    (message appName input action errorMsg : string) :
  bufferMutex (ls st) = unlocked →
  bufferSize (ls st) <= Z.of_nat (length (logBuffer (ls st))) + 1 →
  ∃ st',
    log now level message appName input action errorMsg st = Blocks st'
    ∧ logBuffer (ls st')
      = logBuffer (ls st) ++ [entryOf now level message appName input action errorMsg]
    ∧ files st' = files st.
Proof.
  destruct st as [[file path maxSize maxFiles bufSize buffer mu enabled] fs marshal].
  simpl. intros -> Hlen. unfold log. run_log.
  rewrite length_app. simpl.
  destruct (Z.geb_spec (Z.of_nat (length buffer + 1)) bufSize) as [_|]; [|lia].
  unfold flush. run_log. eexists. split; [reflexivity|]. done.
Qed.

Lemma log_at_capacity_blocks_witness :
  returned (LogInfoTimes 99 0 "tick" started) = Some tt
  ∧ ∃ st',
      log 0 LogLevelInfo "tick" "" "" "" "" (final (LogInfoTimes 99 0 "tick" started))
        = Blocks st'
      ∧ length (logBuffer (ls st')) = 100%nat.
Proof.
  split; [vm_compute; reflexivity|].
  destruct (log_at_capacity_blocks (final (LogInfoTimes 99 0 "tick" started))
              0 LogLevelInfo "tick" "" "" "" "")
    as (st' & Hrun & Hbuf & _).
  - vm_compute. reflexivity.
  - vm_compute. discriminate.
  - exists st'. split; [exact Hrun|]. rewrite Hbuf. vm_compute. reflexivity.
Defined.

(** On a started service with the default capacity of 100, ninety-nine
    calls of [LogInfo] return and the hundredth does not. *)
Example LogInfo_hundredth_call_blocks :
  returned (LogInfoTimes 99 0 "tick" started) = Some tt
  ∧ returned (LogInfoTimes 100 0 "tick" started) = None.
Proof. split; vm_compute; reflexivity. Qed.

(** With logging switched off, [LogInfo] records nothing. *)
Example LogInfo_disabled :
  LogInfo 0 "tick" (SetLogging false started) = Returns tt (SetLogging false started).
Proof. reflexivity. Qed.

(** *** Flushing without rotation *)

Lemma encodeEntries_app marshal b1 b2 :
  encodeEntries marshal (b1 ++ b2)
  = String.append (encodeEntries marshal b1) (encodeEntries marshal b2).
Proof.
  induction b1 as [|entry b1 IH]; simpl; [done|].
  destruct (marshal entry); [|done]. by rewrite IH, !append_assoc.
Qed.

(** [flush] on an empty buffer does nothing, whatever the size or the
    state of the file. *)
Lemma flush_nothing_buffered (st : LogState) :
  bufferMutex (ls st) = unlocked →
  logBuffer (ls st) = [] →
  flush st = Returns tt st.
Proof.
  destruct st as [[file path maxSize maxFiles bufSize buffer mu enabled] fs marshal].
  simpl. intros -> ->. unfold flush. run_log. reflexivity.
Qed.






(** [flush] below the size limit. *)
Lemma flush_below_limit st content :
  bufferMutex (ls st) = unlocked →
  logFile (ls st) = Some Opened →
  files st !! logPath (ls st) = Some content →
  Z.of_nat (String.length content) < maxLogSize (ls st) →
  flush st =
    Returns tt
      (setBuffer []
         (setFiles
            (<[logPath (ls st) :=
                 String.append content (encodeEntries (jsonMarshal st) (logBuffer (ls st)))]>
               (files st))
            st)).
Proof.
  destruct st as [[file path maxSize maxFiles bufSize buffer mu enabled] fs marshal].
  simpl. intros -> -> Hfile Hsize.
  destruct buffer as [|entry buffer].
  { unfold flush. run_log. unfold setBuffer, setFiles. simpl.
    by rewrite append_empty_r, insert_id. }
  unfold flush, rotateLogIfNeeded.
  unfold mbind, M_bind, mret, M_ret, lockBuf, unlockBuf, Lock, Unlock, get, modify.
  cbn -[foldl writeEntry encodeEntries]. rewrite Hfile.
  destruct (Z.ltb_spec (Z.of_nat (String.length content)) maxSize) as [_|]; [|lia].
  cbn -[foldl writeEntry encodeEntries].
  match goal with
  | |- context [foldl writeEntry ?s ?b] =>
      rewrite (writeEntries_files s b content eq_refl Hfile)
  end.
  reflexivity.
Qed.

(** X18. Below the size limit, [flush] appends to the live file one line
    for each buffered entry that marshals, in the order of the buffer,
    empties the buffer and touches no other file; the file stays open and
    the mutex is free again. *)
Theorem flush_appends_buffer_in_order (st : LogState) (content : string) :
  bufferMutex (ls st) = unlocked →
  logFile (ls st) = Some Opened →
  files st !! logPath (ls st) = Some content →
  Z.of_nat (String.length content) < maxLogSize (ls st) →
  ∃ st',
    flush st = Returns tt st'
    ∧ logBuffer (ls st') = []
    ∧ files st' !! logPath (ls st)
      = Some (String.append content (encodeEntries (jsonMarshal st) (logBuffer (ls st))))
    ∧ (∀ path, path ≠ logPath (ls st) → files st' !! path = files st !! path)
    ∧ logFile (ls st') = Some Opened
    ∧ bufferMutex (ls st') = unlocked.
Proof.
  intros Hmu Hopen Hfile Hsize. rewrite (flush_below_limit st content) by done.
  eexists. split; [reflexivity|]. simpl. split_and!; try done.
  - apply lookup_insert_eq.
  - intros path Hpath. by rewrite lookup_insert_ne.
Qed.

(** X19. Without an open file [flush] writes nothing.  When the service
    has no file the buffered entries are dropped: the buffer is emptied.
    When the file has been closed the rotation check fails and the buffer
    is kept as it is. *)
Theorem flush_without_open_file (st : LogState) :
  bufferMutex (ls st) = unlocked →
  logFile (ls st) ≠ Some Opened →
  ∃ st',
    flush st = Returns tt st'
    ∧ files st' = files st
    ∧ (logFile (ls st) = None → logBuffer (ls st') = [])
    ∧ (logFile (ls st) = Some Closed → st' = st).
Proof.
  destruct st as [[file path maxSize maxFiles bufSize buffer mu enabled] fs marshal].
  simpl. intros -> Hfile.
  destruct buffer as [|entry buffer].
  { eexists. unfold flush. run_log. split; [reflexivity|]. done. }
  destruct file as [[|]|]; [done| |].
  - eexists. unfold flush, rotateLogIfNeeded. run_log. split; [reflexivity|]. done.
  - unfold flush, rotateLogIfNeeded.
    unfold mbind, M_bind, mret, M_ret, lockBuf, unlockBuf, Lock, Unlock, get, modify.
    cbn -[foldl].
    assert (∀ s b, logFile (ls s) = None → foldl writeEntry s b = s) as Hnone.
    { intros s b Hs. induction b as [|e b IH]; simpl; [done|].
      unfold writeEntry at 2. rewrite Hs. by destruct (jsonMarshal s e). }
    rewrite Hnone by done. eexists. split; [reflexivity|]. done.
Qed.

Lemma flush_appends_buffer_in_order_witness :
  ∃ st',
    flush (setBuffer (entriesFor 0 [CallInfo "up"; CallError "down"]) started)
      = Returns tt st'
    ∧ files st' !! sampleLogPath
      = Some (String.append "up" (String "010" (String.append "down" (String "010" "")))).
Proof.
  destruct (flush_appends_buffer_in_order
              (setBuffer (entriesFor 0 [CallInfo "up"; CallError "down"]) started) "")
    as (st' & Hrun & _ & Hfile & _).
  - reflexivity.
  - reflexivity.
  - vm_compute. reflexivity.
  - vm_compute. reflexivity.
  - exists st'. split; [exact Hrun|]. vm_compute in Hfile |- *. exact Hfile.
Defined.

Lemma flush_without_open_file_witness :
  ∃ st',
    flush (setBuffer (entriesFor 0 [CallInfo "up"])
             {| ls := NewLoggerService sampleLogPath; files := ∅;
                jsonMarshal := messageOnly |})
      = Returns tt st'
    ∧ files st' = ∅
    ∧ logBuffer (ls st') = [].
Proof.
  destruct (flush_without_open_file
              (setBuffer (entriesFor 0 [CallInfo "up"])
                 {| ls := NewLoggerService sampleLogPath; files := ∅;
                    jsonMarshal := messageOnly |}))
    as (st' & Hrun & Hfiles & Hnone & _).
  - reflexivity.
  - discriminate.
  - exists st'. split; [exact Hrun|]. split; [exact Hfiles|]. apply Hnone. reflexivity.
Defined.

(** *** The logging calls *)

Lemma call_disabled st now c :
  enableLogging (ls st) = false → call now c st = Returns tt st.
Proof.
  intros Hoff.
  destruct c; unfold call, LogDebug, LogInfo, LogWarn, LogError, LogWindowChange,
    LogInputSwitch, LogRuleMatch, mbind, M_bind, get; simpl; by rewrite Hoff.
Qed.

Lemma call_below_capacity st now c :
  enableLogging (ls st) = true →
  bufferMutex (ls st) = unlocked →
  Z.of_nat (length (logBuffer (ls st))) + 1 < bufferSize (ls st) →
  call now c st = Returns tt (setBuffer (logBuffer (ls st) ++ [entryFor now c]) st).
Proof.
  intros Hon Hmu Hlen.
  destruct c; unfold call, LogDebug, LogInfo, LogWarn, LogError, LogWindowChange,
    LogInputSwitch, LogRuleMatch, mbind, M_bind, get; simpl; rewrite Hon;
    by rewrite log_below_capacity.
Qed.

(** X20. While the buffer stays below its capacity, a sequence of calls
    of the [Log...] methods returns and appends one entry for each call
    to the buffer, in the order of the calls, with the level, fields and
    message of the method; no file is read or written. *)
Theorem calls_fill_buffer_in_order (st : LogState) (now : Z) (cs : list Call) :
  enableLogging (ls st) = true →
  bufferMutex (ls st) = unlocked →
  Z.of_nat (length (logBuffer (ls st)) + length cs) < bufferSize (ls st) →
  callAll now cs st
  = Returns tt (setBuffer (logBuffer (ls st) ++ entriesFor now cs) st).
Proof.
  revert st now. induction cs as [|c cs IH]; intros st now Hon Hmu Hlen.
  - simpl. rewrite app_nil_r. by destruct st as [[] ? ?].
  - simpl in *. unfold mbind, M_bind.
    rewrite call_below_capacity by (try done; lia).
    rewrite IH; simpl; [|done|done|rewrite length_app; simpl; lia].
    by rewrite <- app_assoc.
Qed.

Lemma calls_fill_buffer_in_order_witness :
  returned (callAll 7 [CallWindowChange "Safari" "Start"; CallRuleMatch "Safari" "abc"]
              started) = Some tt
  ∧ map Action
      (logBuffer
         (ls (final (callAll 7 [CallWindowChange "Safari" "Start";
                                CallRuleMatch "Safari" "abc"] started))))
    = ["window_change"%string; "rule_match"%string]
  ∧ files (final (callAll 7 [CallWindowChange "Safari" "Start";
                             CallRuleMatch "Safari" "abc"] started))
    = files started.
Proof.
  rewrite (calls_fill_buffer_in_order started 7
             [CallWindowChange "Safari" "Start"; CallRuleMatch "Safari" "abc"]).
  - split; [reflexivity|]. split; reflexivity.
  - reflexivity.
  - reflexivity.
  - vm_compute. reflexivity.
Defined.

(** X21. After [SetLogging(false)] every [Log...] method returns at once
    and leaves the service as it is: nothing is buffered and the mutex
    is not taken, so the calls return even when the mutex is held or the
    buffer is one entry short of its capacity. *)
Theorem calls_do_nothing_when_disabled (st : LogState) (now : Z) (cs : list Call) :
  callAll now cs (SetLogging false st) = Returns tt (SetLogging false st).
Proof.
  revert now. induction cs as [|c cs IH]; intros now; [done|].
  simpl. unfold mbind, M_bind. rewrite call_disabled by done. apply IH.
Qed.

(** *** Clearing and stopping *)

(** X22. [ClearLogs] returns without error, empties the buffer, leaves an
    empty live file that is open again, keeps every other file (the
    rotated generations are not removed) and gives the mutex back. *)
Theorem ClearLogs_empties_live_file_only (st : LogState) :
  bufferMutex (ls st) = unlocked →
  ∃ st',
    ClearLogs st = Returns None st'
    ∧ logBuffer (ls st') = []
    ∧ files st' !! logPath (ls st) = Some ""%string
    ∧ (∀ path, path ≠ logPath (ls st) → files st' !! path = files st !! path)
    ∧ logFile (ls st') = Some Opened
    ∧ bufferMutex (ls st') = unlocked.
Proof.
  destruct st as [[file path maxSize maxFiles bufSize buffer mu enabled] fs marshal].
  simpl. intros ->. unfold ClearLogs, closeLogFile, Remove, OpenAppend.
  unfold mbind, M_bind, mret, M_ret, lockBuf, unlockBuf, Lock, Unlock, get, modify.
  destruct file as [f|]; simpl; rewrite lookup_delete_eq; simpl;
    (eexists; split; [reflexivity|]; simpl; split_and!; try done;
     [apply lookup_insert_eq
     |intros p Hp; by rewrite lookup_insert_ne, lookup_delete_ne]).
Qed.

Lemma ClearLogs_empties_live_file_only_witness :
  ∃ st',
    ClearLogs fullLogger = Returns None st'
    ∧ logBuffer (ls st') = []
    ∧ files st' !! sampleLogPath = Some ""%string
    ∧ files st' !! generationName sampleLogPath 1 = Some "first"%string.
Proof.
  destruct (ClearLogs_empties_live_file_only fullLogger)
    as (st' & Hrun & Hbuf & Hlive & Hrest & _).
  - reflexivity.
  - exists st'. split; [exact Hrun|]. split; [exact Hbuf|]. split; [exact Hlive|].
    rewrite Hrest by (vm_compute; discriminate). vm_compute. reflexivity.
Defined.

(** X23. [Stop] loses no buffered entry: it returns with the file closed
    and the buffer empty, and the live file ends with the lines of the
    buffer, in order.  They follow the former content of the live file,
    or, when the file had reached the size limit and the buffer was not
    empty, they are the whole of a fresh live file and the former content
    is generation 1. *)
Theorem Stop_writes_buffer_and_closes (st : LogState) (content : string) :
  bufferMutex (ls st) = unlocked →
  logFile (ls st) = Some Opened →
  files st !! logPath (ls st) = Some content →
  1 <= maxLogFiles (ls st) →
  ∃ st' kept,
    Stop st = Returns tt st'
    ∧ logFile (ls st') = Some Closed
    ∧ logBuffer (ls st') = []
    ∧ bufferMutex (ls st') = unlocked
    ∧ files st' !! logPath (ls st)
      = Some (String.append kept (encodeEntries (jsonMarshal st) (logBuffer (ls st))))
    ∧ (kept = content
       ∨ kept = ""%string
         ∧ files st' !! generationName (logPath (ls st)) 1 = Some content).
Proof.
  intros Hmu Hopen Hfile Hfiles. unfold Stop, mbind, M_bind, modify.
  destruct (decide (logBuffer (ls st) = [])) as [Hempty|Hbuf].
  { rewrite flush_nothing_buffered by done. exists (closeLogFile st), content.
    unfold closeLogFile. rewrite Hopen, Hempty. simpl.
    rewrite append_empty_r. split_and!; try done. by left. }
  destruct (Z.lt_ge_cases (Z.of_nat (String.length content)) (maxLogSize (ls st)))
    as [Hsize|Hsize].
  - rewrite (flush_below_limit st content) by done.
    eexists _, content. split; [reflexivity|].
    unfold closeLogFile. simpl. rewrite Hopen. simpl.
    split_and!; try done; [apply lookup_insert_eq|by left].
  - rewrite (flush_rotation st content) by done.
    destruct (rotateFiles_lookup (logPath (ls st)) (maxLogFiles (ls st)) (files st)
                content Hfiles Hfile) as (_ & Hone & _).
    eexists _, ""%string. split; [reflexivity|].
    unfold closeLogFile. simpl. rewrite Hopen. simpl.
    split_and!; try done; [apply lookup_insert_eq|].
    right. split; [done|].
    rewrite lookup_insert_ne
      by (intros Heq; by apply (generationName_not_live (logPath (ls st)) 1)).
    exact Hone.
Qed.

Lemma Stop_writes_buffer_and_closes_witness :
  ∃ st',
    Stop (final (callAll 0 [CallInfo "up"; CallWarn "down"] started)) = Returns tt st'
    ∧ logFile (ls st') = Some Closed
    ∧ files st' !! sampleLogPath
      = Some (String.append "up" (String "010" (String.append "down" (String "010" "")))).
Proof.
  destruct (Stop_writes_buffer_and_closes
              (final (callAll 0 [CallInfo "up"; CallWarn "down"] started)) "")
    as (st' & kept & Hrun & Hclosed & _ & _ & Hfile & [-> | [-> _]]).
  - reflexivity.
  - reflexivity.
  - vm_compute. reflexivity.
  - vm_compute. discriminate.
  - exists st'. split; [exact Hrun|]. split; [exact Hclosed|].
    vm_compute in Hfile |- *. exact Hfile.
  - exists st'. split; [exact Hrun|]. split; [exact Hclosed|].
    vm_compute in Hfile |- *. exact Hfile.
Defined.

(** *** Repeated rotations *)




(** *** The names, once more *)

Lemma Ext_suffix path : ∃ stem, path = String.append stem (GoPath.Ext path).
Proof.
  induction path as [|c path [stem IH]]; [by exists ""%string|].
  simpl. destruct (GoPath.stops path).
  - exists (String c stem). rewrite append_cons. by f_equal.
  - destruct (Ascii.eqb c ".").
    + by exists ""%string.
    + exists (String c path). by rewrite append_empty_r.
Qed.

Lemma substring_append stem rest :
  String.substring 0 (String.length stem) (String.append stem rest) = stem.
Proof.
  induction stem as [|c stem IH]; [by destruct rest|].
  rewrite append_cons. simpl. by rewrite IH.
Qed.

(** X25. The name of a generation is the path of the live file with
    [.i] put in front of its extension: the part before the extension
    and the extension make up the path again, two generations have the
    same name only when their numbers are equal, and no generation has
    the name of the live file, so a rotation never renames one file onto
    another that it means to keep. *)
Theorem generation_names_are_distinct (path : string) (i j : Z) :
  String.append (baseNameWithoutExt path) (GoPath.Ext path) = path
  ∧ (generationName path i = generationName path j ↔ i = j)
  ∧ generationName path i ≠ path.
Proof.
  split_and!.
  - unfold baseNameWithoutExt. destruct (Ext_suffix path) as [stem Hstem].
    rewrite Hstem at 1 3. rewrite length_append, Nat.add_sub.
    rewrite Hstem at 1. rewrite substring_append. by rewrite <- Hstem.
  - split; [apply generationName_inj|by intros ->].
  - apply generationName_not_live.
Qed.

End LoggerSpec.

(** ** The foreground window *)

Module QuerySpec.
Import Window.

Lemma Contains_in_empty s : GoStrings.Contains "" s = String.eqb s "".
Proof. by destruct s. Qed.

(** X27. On macOS an observation carries the trimmed, non-empty name of
    the application and nothing else: its window title and its path are
    empty.  A rule is therefore matched by its window pattern only when
    the pattern is blank or made of stars: on macOS any other window
    pattern keeps its rule from ever matching. *)
Theorem macOS_observation_has_no_title
    (scan : string → option Z) (cmds : Commands) (window : WindowInfo) :
  GetActiveWindow "darwin" scan cmds = QueryOk window →
  AppName window ≠ ""%string
  ∧ GoStrings.TrimSpace (AppName window) = AppName window
  ∧ AppPath window = ""%string
  ∧ WindowName window = ""%string
  ∧ ∀ ruleWindowName,
      Matcher.windowNameMatches (WindowName window) ruleWindowName
      = String.eqb
          (Matcher.withoutStars (GoStrings.ToLower (GoStrings.TrimSpace ruleWindowName)))
          "".
Proof.
  unfold GetActiveWindow. simpl. unfold getActiveWindowMac.
  destruct (osascriptName cmds) as [output|]; [|done].
  destruct (String.eqb_spec (GoStrings.TrimSpace output) "") as [|Hname]; [done|].
  destruct (osascriptPid cmds) as [outputPID|]; [|done].
  intros [= <-]. simpl. split_and!; try done.
  - apply MatcherSpec.TrimSpace_idemp.
  - intros ruleWindowName. unfold Matcher.windowNameMatches.
    destruct (String.eqb_spec ruleWindowName "") as [->|_]; [done|].
    change (GoStrings.ToLower (GoStrings.TrimSpace "")) with ""%string.
    rewrite !Contains_in_empty.
    destruct (GoStrings.Contains _ "*") eqn:Hstar.
    + by rewrite MatcherSpec.ReplaceAll_stars.
    + by rewrite MatcherSpec.withoutStars_fixed.
Qed.

Lemma macOS_observation_has_no_title_witness :
  ∃ window,
    GetActiveWindow "darwin" (fun _ => Some 501)
      {| osascriptName := Some (String.append "Safari" (String "010" ""));
         osascriptPid := Some (String.append "501" (String "010" ""));
         powershell := None |}
    = QueryOk window
    ∧ AppName window = "Safari"%string
    ∧ Matcher.windowNameMatches (WindowName window) "Downloads" = false
    ∧ Matcher.windowNameMatches (WindowName window) "*" = true.
Proof.
  eexists. split; [vm_compute; reflexivity|].
  destruct (macOS_observation_has_no_title (fun _ => Some 501)
              {| osascriptName := Some (String.append "Safari" (String "010" ""));
                 osascriptPid := Some (String.append "501" (String "010" ""));
                 powershell := None |}
              {| AppName := "Safari"; AppPath := ""; WindowName := ""; PID := 501 |})
    as (_ & _ & _ & _ & Hmatch).
  - vm_compute. reflexivity.
  - split; [reflexivity|]. split.
    + rewrite Hmatch. vm_compute. reflexivity.
    + rewrite Hmatch. vm_compute. reflexivity.
Defined.

(** *** The line of the PowerShell script *)

Lemma bars_cons rest : String.append "||" rest = String "|" (String "|" rest).
Proof. reflexivity. Qed.

Lemma HasPrefix_bar field x y :
  GoStrings.HasPrefix (String.append field (String "|" x)) "|"
  = GoStrings.HasPrefix (String.append field (String "|" y)) "|".
Proof.
  destruct field as [|c field]; unfold String.append; fold String.append;
    cbn [GoStrings.HasPrefix]; by rewrite !MatcherSpec.HasPrefix_empty.
Qed.

Lemma splitFrom_field field rest :
  fieldOfLine field →
  GoStrings.splitFrom "||" (String.append field (String "|" (String "|" rest))) 0
  = field :: GoStrings.splitFrom "||" rest 0.
Proof.
  unfold fieldOfLine. induction field as [|c field IH]; intros Hfield.
  - unfold String.append. cbn [GoStrings.splitFrom GoStrings.HasPrefix].
    rewrite MatcherSpec.HasPrefix_empty. reflexivity.
  - rewrite LoggerSpec.append_cons in *.
    cbn [GoStrings.Contains] in Hfield. apply orb_false_elim in Hfield as [Hhead Hrest].
    cbn [GoStrings.splitFrom].
    assert (GoStrings.HasPrefix
              (String c (String.append field (String "|" (String "|" rest)))) "||" = false)
      as ->.
    { cbn [GoStrings.HasPrefix] in Hhead |- *.
      by rewrite (HasPrefix_bar field _ ""). }
    by rewrite IH.
Qed.

(** X28. The line that the PowerShell script prints is read back field by
    field: when no field holds the separator "||" or ends in "|", the
    observation has the process name, the path and the title of the line
    and the process id that the scan reads in its last field (0 when the
    scan fails). *)
Theorem powershell_line_is_read_back
    (scan : string → option Z) (cmds : Commands) (output name path title pid : string) :
  powershell cmds = Some output →
  GoStrings.TrimSpace output = powershellLine name path title pid →
  fieldOfLine name → fieldOfLine path → fieldOfLine title →
  GoStrings.Contains pid "||" = false →
  GetActiveWindow "windows" scan cmds
  = QueryOk {| AppName := name; AppPath := path; WindowName := title;
               PID := pidOf scan pid |}.
Proof.
  intros Hout Hline Hname Hpath Htitle Hpid.
  unfold GetActiveWindow. simpl. unfold getActiveWindowWindows. rewrite Hout, Hline.
  assert (GoStrings.Split (powershellLine name path title pid) "||"
          = [name; path; title; pid]) as ->.
  { unfold GoStrings.Split, powershellLine. rewrite !bars_cons.
    rewrite !splitFrom_field by done.
    by rewrite MatcherSpec.splitFrom_no_sep. }
  destruct (String.eqb_spec (powershellLine name path title pid) "") as [Hempty|_]; [|done].
  unfold powershellLine in Hempty. apply (f_equal String.length) in Hempty.
  rewrite !LoggerSpec.length_append in Hempty. simpl in Hempty. lia.
Qed.

Lemma powershell_line_is_read_back_witness :
  GetActiveWindow "windows" (fun _ => Some 4242)
    {| osascriptName := None; osascriptPid := None;
       powershell :=
         Some (String.append "chrome||C:\chrome.exe||New Tab||4242"
                 (String "013" (String "010" ""))) |}
  = QueryOk {| AppName := "chrome"; AppPath := "C:\chrome.exe"; WindowName := "New Tab";
               PID := 4242 |}.
Proof.
  apply (powershell_line_is_read_back (fun _ => Some 4242) _
           (String.append "chrome||C:\chrome.exe||New Tab||4242"
              (String "013" (String "010" "")))
           "chrome" "C:\chrome.exe" "New Tab" "4242").
  - reflexivity.
  - vm_compute. reflexivity.
  - vm_compute. reflexivity.
  - vm_compute. reflexivity.
  - vm_compute. reflexivity.
  - vm_compute. reflexivity.
Defined.

End QuerySpec.

(** ** The application *)

Module AppSpec.
Import GoSync App.

Lemma onLogger_returns {A} (m : M Logger.LogState A) a st app :
  m (loggerService app) = Returns a st →
  onLogger m app = Returns a (setLoggerService st app).
Proof. unfold onLogger, onService. by intros ->. Qed.

Lemma onMatcher_returns {A} (m : M Matcher.State A) a st app :
  m (matcherService app) = Returns a st →
  onMatcher m app = Returns a (setMatcherService st app).
Proof. unfold onMatcher, onService. by intros ->. Qed.

Lemma GetConfig_reads st :
  Matcher.ruleMutex (Matcher.ms st) = unlocked →
  Matcher.GetConfig st = Returns (Matcher.config (Matcher.ms st)) st.
Proof.
  destruct st as [[c path m mu] arrs nxt fs e]. simpl. intros ->.
  unfold Matcher.GetConfig. Matcher.run_monad. reflexivity.
Qed.

Lemma MatchWindow_reads order window st :
  Matcher.ruleMutex (Matcher.ms st) = unlocked →
  ∃ found, Matcher.MatchWindow order window st = Returns found st.
Proof.
  destruct st as [[c path m mu] arrs nxt fs e]. simpl. intros ->.
  unfold Matcher.MatchWindow. Matcher.run_monad. by eexists.
Qed.

Lemma setMatcherService_same st app :
  matcherService app = st → setMatcherService st app = app.
Proof. intros <-. by destruct app. Qed.

(** X29. A change of window reported to the application is logged, then
    the rules are consulted.  Without a match nothing else happens.  With
    a match the rule is logged, the input of that rule is handed to
    [SwitchInput], and the outcome of the switch is logged as
    [switch_success] or [switch_failed]: three entries, in this order.
    Off macOS the tool is never run and every match is logged as a
    failed switch.  The matcher, the monitor and the log files are left
    as they are. *)
Theorem onWindowChange_logs_then_switches
    (goos : string) (run : string → option string)
    (order : list (string * list Matcher.Rule)) (t1 t2 t3 : Z)
    (window : Window.WindowInfo) (c : Matcher.Config) (app : AppState) :
  Matcher.ruleMutex (Matcher.ms (matcherService app)) = unlocked →
  Matcher.config (Matcher.ms (matcherService app)) = Some c →
  Logger.enableLogging (Logger.ls (loggerService app)) = true →
  Logger.bufferMutex (Logger.ls (loggerService app)) = unlocked →
  Z.of_nat (length (Logger.logBuffer (Logger.ls (loggerService app)))) + 3
    < Logger.bufferSize (Logger.ls (loggerService app)) →
  ∃ found app',
    Matcher.MatchWindow order (Some window) (matcherService app)
      = Returns found (matcherService app)
    ∧ onWindowChange goos run order t1 t2 t3 (Some window) app = Returns tt app'
    ∧ matcherService app' = matcherService app
    ∧ windowService app' = windowService app
    ∧ monitors app' = monitors app
    ∧ Logger.files (loggerService app') = Logger.files (loggerService app)
    ∧ match found with
      | None =>
          inputService app' = inputService app
          ∧ Logger.logBuffer (Logger.ls (loggerService app'))
            = Logger.logBuffer (Logger.ls (loggerService app))
              ++ [Logger.entryFor t1
                    (Logger.CallWindowChange (Window.AppName window)
                       (Window.WindowName window))]
      | Some rule =>
          ∃ err,
            Input.SwitchInput goos run (Matcher.Input rule) (inputService app)
              = Returns err (inputService app')
            ∧ inputService app'
              = (if String.eqb goos "darwin"
                 then inputService app ++ [Matcher.Input rule]
                 else inputService app)
            ∧ Logger.logBuffer (Logger.ls (loggerService app'))
              = Logger.logBuffer (Logger.ls (loggerService app))
                ++ [Logger.entryFor t1
                      (Logger.CallWindowChange (Window.AppName window)
                         (Window.WindowName window));
                    Logger.entryFor t2
                      (Logger.CallRuleMatch (Matcher.AppName rule) (Matcher.Input rule));
                    Logger.entryFor t3 (switchCall rule err)]
      end.
Proof.
  intros Hmu Hconfig Hon Hbuf Hroom.
  destruct (MatchWindow_reads order (Some window) (matcherService app) Hmu)
    as [found Hfound].
  exists found.
  assert (Logger.LogWindowChange t1 (Window.AppName window) (Window.WindowName window)
            (loggerService app)
          = Returns tt
              (Logger.setBuffer
                 (Logger.logBuffer (Logger.ls (loggerService app))
                  ++ [Logger.entryFor t1
                        (Logger.CallWindowChange (Window.AppName window)
                           (Window.WindowName window))])
                 (loggerService app))) as Hfirst.
  { apply (LoggerSpec.call_below_capacity (loggerService app) t1
             (Logger.CallWindowChange (Window.AppName window) (Window.WindowName window)));
      [done|done|lia]. }
  unfold onWindowChange, onRuleMatch, mbind, M_bind. on_service.
  rewrite Hfirst. on_service. rewrite Hfound. on_service.
  destruct found as [rule|].
  2:{ eexists. split; [done|]. split; [reflexivity|]. simpl. by destruct app. }
  on_service. rewrite (GetConfig_reads _ Hmu), Hconfig. on_service.
  set (first := Logger.setBuffer _ (loggerService app)) in *.
  assert (Logger.LogRuleMatch t2 (Matcher.AppName rule) (Matcher.Input rule) first
          = Returns tt
              (Logger.setBuffer
                 (Logger.logBuffer (Logger.ls first)
                  ++ [Logger.entryFor t2
                        (Logger.CallRuleMatch (Matcher.AppName rule) (Matcher.Input rule))])
                 first)) as Hsecond.
  { apply (LoggerSpec.call_below_capacity first t2
             (Logger.CallRuleMatch (Matcher.AppName rule) (Matcher.Input rule)));
      [done|done|]. subst first. simpl. rewrite length_app. simpl. lia. }
  rewrite Hsecond. on_service.
  set (second := Logger.setBuffer _ first) in *.
  assert (∀ err action,
            Logger.LogInputSwitch t3 (Matcher.AppName rule) (Matcher.Input rule) action err
              second
            = Returns tt
                (Logger.setBuffer
                   (Logger.logBuffer (Logger.ls second)
                    ++ [Logger.entryFor t3
                          (Logger.CallInputSwitch (Matcher.AppName rule)
                             (Matcher.Input rule) action err)])
                   second)) as Hthird.
  { intros err action.
    apply (LoggerSpec.call_below_capacity second t3
             (Logger.CallInputSwitch (Matcher.AppName rule) (Matcher.Input rule) action err));
      [done|done|]. subst second first. simpl. rewrite !length_app. simpl. lia. }
  unfold Input.SwitchInput, Input.switchInputMac, mbind, M_bind, mret, M_ret, modify.
  destruct (String.eqb goos "darwin"); cbn [negb]; cbv beta iota.
  - destruct (run (Matcher.Input rule)) as [cause|]; cbv beta iota; on_service;
      rewrite Hthird;
      (eexists; split; [done|]; split; [reflexivity|]; on_service;
       split_and!; try done; try (by destruct app);
       eexists; split; [reflexivity|]; split; [done|];
       subst second first; simpl; by rewrite <- !app_assoc).
  - cbv beta iota. on_service. rewrite Hthird.
    eexists. split; [done|]. split; [reflexivity|]. on_service.
    split_and!; try done; try (by destruct app).
    eexists. split; [reflexivity|]. split; [done|].
    subst second first. simpl. by rewrite <- !app_assoc.
Qed.

Lemma onWindowChange_logs_then_switches_witness :
  ∃ app',
    onWindowChange "darwin" (fun _ => None) Matcher.chromeFirst 10 11 12
      (Some Matcher.canaryWindow) running
    = Returns tt app'
    ∧ inputService app' = [Matcher.Input Matcher.ruleChrome]
    ∧ map Logger.Action (Logger.logBuffer (Logger.ls (loggerService app')))
      = ["window_change"%string; "rule_match"%string; "switch_success"%string].
Proof.
  destruct (onWindowChange_logs_then_switches "darwin" (fun _ => None)
              Matcher.chromeFirst 10 11 12 Matcher.canaryWindow
              {| Matcher.Rules := {| Matcher.base := 0; Matcher.len := 2; Matcher.cap := 2 |};
                 Matcher.General := Matcher.defaultGeneral;
                 Matcher.LastModified := "4242" |}
              running)
    as (found & app' & Hfound & Hrun & _ & _ & _ & _ & Hcase).
  - vm_compute. reflexivity.
  - vm_compute. reflexivity.
  - reflexivity.
  - reflexivity.
  - vm_compute. reflexivity.
  - assert (returned (Matcher.MatchWindow Matcher.chromeFirst (Some Matcher.canaryWindow)
                        (matcherService running))
            = Some (Some Matcher.ruleChrome)) as Hmatch by (vm_compute; reflexivity).
    rewrite Hfound in Hmatch. simpl in Hmatch. injection Hmatch as ->.
    destruct Hcase as (err & Hswitch & Hruns & Hbuffer).
    apply (f_equal returned) in Hswitch. vm_compute in Hswitch. injection Hswitch as <-.
    exists app'. split; [exact Hrun|]. split.
    + rewrite Hruns. vm_compute. reflexivity.
    + rewrite Hbuffer. vm_compute. reflexivity.
Defined.

(** *** Starting up *)

Lemma LoadConfig_rejects st bytes :
  Matcher.ruleMutex (Matcher.ms st) = unlocked →
  Matcher.readFails (Matcher.env st) = false →
  Matcher.files st !! Matcher.configPath (Matcher.ms st) = Some (Matcher.Malformed bytes) →
  Matcher.LoadConfig st = Returns (Some Matcher.ErrParse) st.
Proof.
  destruct st as [[c0 path m mu] arrs nxt fs e]. simpl. intros -> Hread Hfile.
  unfold Matcher.LoadConfig. Matcher.run_monad.
  rewrite Hfile. simpl. rewrite Hread, Hfile. reflexivity.
Qed.

(** X30. [startup] opens the log, logs the start and loads the
    configuration.  With a file that decodes it takes the logging switch
    from the file, registers the window callback and starts one monitor;
    the closing message is logged only when the file enables logging,
    while the first message is logged either way, the switch being on
    until the file is read.  With a file that does not parse it logs the
    error and stops there: no callback is registered and no monitor is
    started. *)
Theorem startup_follows_configuration
    (describe : Matcher.Error → string) (t1 t2 : Z)
    (data : Matcher.FileData) (app : AppState) :
  Matcher.ruleMutex (Matcher.ms (matcherService app)) = unlocked →
  Matcher.readFails (Matcher.env (matcherService app)) = false →
  Matcher.files (matcherService app) !! Matcher.configPath (Matcher.ms (matcherService app))
    = Some data →
  Logger.enableLogging (Logger.ls (loggerService app)) = true →
  Logger.bufferMutex (Logger.ls (loggerService app)) = unlocked →
  Z.of_nat (length (Logger.logBuffer (Logger.ls (loggerService app)))) + 2
    < Logger.bufferSize (Logger.ls (loggerService app)) →
  ∃ app',
    startup describe t1 t2 app = Returns tt app'
    ∧ Logger.logFile (Logger.ls (loggerService app')) = Some Logger.Opened
    ∧ match data with
      | Matcher.Json doc =>
          Logger.enableLogging (Logger.ls (loggerService app'))
            = Matcher.EnableLogging (Matcher.docGeneral doc)
          ∧ (∃ c, Matcher.config (Matcher.ms (matcherService app')) = Some c
                  ∧ Matcher.elems (matcherService app') (Matcher.Rules c)
                    = Matcher.docRules doc)
          ∧ Window.onWindowChange (windowService app') = true
          ∧ monitors app' = S (monitors app)
          ∧ Logger.logBuffer (Logger.ls (loggerService app'))
            = Logger.logBuffer (Logger.ls (loggerService app))
              ++ Logger.entryFor t1 (Logger.CallInfo "应用程序启动")
                 :: (if Matcher.EnableLogging (Matcher.docGeneral doc)
                     then [Logger.entryFor t2 (Logger.CallInfo "输入法自动切换服务已启动")]
                     else [])
      | Matcher.Malformed _ =>
          matcherService app' = matcherService app
          ∧ windowService app' = windowService app
          ∧ monitors app' = monitors app
          ∧ Logger.logBuffer (Logger.ls (loggerService app'))
            = Logger.logBuffer (Logger.ls (loggerService app))
              ++ [Logger.entryFor t1 (Logger.CallInfo "应用程序启动");
                  Logger.entryFor t2
                    (Logger.CallError
                       (String.append "加载配置文件失败: " (describe Matcher.ErrParse)))]
      end.
Proof.
  intros Hmu Hread Hfile Hon Hbuf Hroom.
  unfold startup, mbind, M_bind, modify. on_service.
  set (opened := Logger.Start (loggerService app)).
  assert (Logger.logBuffer (Logger.ls opened)
          = Logger.logBuffer (Logger.ls (loggerService app))) as Hsame by done.
  assert (Logger.LogInfo t1 "应用程序启动" opened
          = Returns tt
              (Logger.setBuffer
                 (Logger.logBuffer (Logger.ls opened)
                  ++ [Logger.entryFor t1 (Logger.CallInfo "应用程序启动")]) opened))
    as Hfirst.
  { apply (LoggerSpec.call_below_capacity opened t1 (Logger.CallInfo "应用程序启动"));
      [done|done|]. rewrite Hsame. simpl. lia. }
  rewrite Hfirst. on_service.
  set (first := Logger.setBuffer _ opened) in *.
  destruct data as [doc|bytes].
  - destruct (MatcherSpec.LoadConfig_json_facts (matcherService app) doc Hmu Hread Hfile)
      as (st' & c & Hload & Hc & Helems & _ & Hgeneral & _ & _ & _ & _ & Hmu').
    rewrite Hload. on_service. rewrite (GetConfig_reads _ Hmu'), Hc. on_service.
    rewrite Hgeneral. cbn [Matcher.fillDefaults Matcher.EnableLogging].
    destruct (Matcher.EnableLogging (Matcher.docGeneral doc)).
    + set (final := Logger.SetLogging true first).
      assert (Logger.LogInfo t2 "输入法自动切换服务已启动" final
              = Returns tt
                  (Logger.setBuffer
                     (Logger.logBuffer (Logger.ls final)
                      ++ [Logger.entryFor t2 (Logger.CallInfo "输入法自动切换服务已启动")])
                     final)) as Hlast.
      { apply (LoggerSpec.call_below_capacity final t2
                 (Logger.CallInfo "输入法自动切换服务已启动")); [done|done|].
        subst final first. simpl. rewrite length_app. simpl. lia. }
      rewrite Hlast. eexists. split; [reflexivity|]. on_service.
      split_and!; try done.
      * by exists c.
      * subst final first. simpl. by rewrite <- app_assoc.
    + set (final := Logger.SetLogging false first).
      assert (Logger.LogInfo t2 "输入法自动切换服务已启动" final = Returns tt final)
        as Hlast.
      { by apply (LoggerSpec.call_disabled final t2
                    (Logger.CallInfo "输入法自动切换服务已启动")). }
      rewrite Hlast. eexists. split; [reflexivity|]. on_service.
      split_and!; try done. by exists c.
  - rewrite (LoadConfig_rejects _ bytes Hmu Hread Hfile). on_service.
    assert (∀ message,
              Logger.LogError t2 message first
              = Returns tt
                  (Logger.setBuffer
                     (Logger.logBuffer (Logger.ls first)
                      ++ [Logger.entryFor t2 (Logger.CallError message)]) first))
      as Hlast.
    { intros message.
      apply (LoggerSpec.call_below_capacity first t2 (Logger.CallError message));
        [done|done|]. subst first. simpl. rewrite length_app. simpl. lia. }
    rewrite Hlast. eexists. split; [reflexivity|]. on_service.
    split_and!; try done.
    subst first. simpl. by rewrite <- app_assoc.
Qed.

Lemma startup_follows_configuration_witness :
  ∃ app',
    startup (fun _ => "unexpected end of JSON input"%string) 0 1
      (newApp (Matcher.withFile [Matcher.ruleChrome; Matcher.ruleGoogle] Matcher.quietEnv))
    = Returns tt app'
    ∧ monitors app' = 1%nat
    ∧ map Logger.Message (Logger.logBuffer (Logger.ls (loggerService app')))
      = ["应用程序启动"%string; "输入法自动切换服务已启动"%string].
Proof.
  destruct (startup_follows_configuration
              (fun _ => "unexpected end of JSON input"%string) 0 1
              (Matcher.Json {| Matcher.docRules := [Matcher.ruleChrome; Matcher.ruleGoogle];
                               Matcher.docGeneral := Matcher.defaultGeneral;
                               Matcher.docLastModified := "4242" |})
              (newApp (Matcher.withFile [Matcher.ruleChrome; Matcher.ruleGoogle]
                         Matcher.quietEnv)))
    as (app' & Hrun & _ & _ & _ & _ & Hmonitors & Hbuffer).
  - reflexivity.
  - reflexivity.
  - vm_compute. reflexivity.
  - reflexivity.
  - reflexivity.
  - vm_compute. reflexivity.
  - exists app'. split; [exact Hrun|]. split; [exact Hmonitors|].
    rewrite Hbuffer. vm_compute. reflexivity.
Defined.

End AppSpec.
